(** * k-d tree over a flat typed array, with its bounded binary heap

    A shallow embedding of [src/js/kdTree.js]: the comparator-driven
    [BinaryHeap], the in-place median builder [buildTree] and the
    branch-and-bound search [nearest], followed by the properties of the
    specification that were checked against them.

    Numbers are modelled as integers ([Z]): coordinates, distances and
    scores are compared with [<] exactly as the source does, and array
    indices are naturals.  Runtime failures of the source (reading a
    property of [undefined] or [null]) are the [TypeError] results below. *)

From Stdlib Require Import ZArith Lia ZifyNat Permutation Sorted.
From stdpp Require Import base tactics option list.

Local Open Scope Z_scope.

(** [lia] is asked to reason about the integer divisions of the index
    arithmetic. *)
Ltac Zify.zify_post_hook ::= Z.to_euclidean_division_equations.

(** ** Results of fallible code *)

(** [TypeError] is the JavaScript runtime error raised when a property of
    [undefined] or [null] is read; [OutOfFuel] is not a behaviour of the
    source but marks a loop or recursion of the model that was given too
    little fuel (the theorems show it never arises with the fuel used). *)
Inductive error : Type :=
  | TypeError
  | OutOfFuel.

Inductive res (A : Type) : Type :=
  | Ok (a : A)
  | Err (e : error).

Arguments Ok {A} a.
Arguments Err {A} e.

Definition rbind {A B : Type} (m : res A) (f : A -> res B) : res B :=
  match m with
  | Ok a => f a
  | Err e => Err e
  end.

Notation "x <-? m ; k" := (rbind m (fun x => k))
  (at level 100, m at next level, right associativity, only parsing).

(** ** The binary heap (lines 175-296) *)

Module BinaryHeap.
Section Heap.

Context {A : Type}.

(** [this.scoreFunction]; the heap is a min-heap on this score. *)
Variable scoreFunction : A -> Z.

(** [this.scoreFunction(x)] where [x] was read from the array: every
    score function of the program dereferences its argument, so scoring
    [undefined] (an out-of-range read, [None]) raises [TypeError]. *)
Definition scoreOf (x : option A) : res Z :=
  match x with
  | Some a => Ok (scoreFunction a)
  | None => Err TypeError
  end.

(** [Math.floor((n + 1) / 2) - 1] *)
Definition parentIndex (n : nat) : nat := ((n + 1) / 2 - 1)%nat.

(** The [while (n > 0)] loop of [bubbleUp].  [element] is read once
    before the loop.  The two array writes happen only after both
    [element] and [parent] were scored, hence are defined and in range:
    [n] is either the index [element] was read from or a former
    [parentN]. *)
Fixpoint bubbleUp_loop (fuel : nat) (element : option A)
         (content : list A) (n : nat) : res (list A) :=
  if (0 <? n)%nat then
    match fuel with
    | O => Err OutOfFuel
    | S fuel' =>
        let parentN := parentIndex n in
        let parent := content !! parentN in
        se <-? scoreOf element;
        sp <-? scoreOf parent;
        if se <? sp then
          match element, parent with
          | Some e, Some p =>
              bubbleUp_loop fuel' element
                (<[n := p]> (<[parentN := e]> content)) parentN
          | _, _ => Err TypeError
          end
        else Ok content
    end
  else Ok content.

Definition bubbleUp (content : list A) (n : nat) : res (list A) :=
  bubbleUp_loop n (content !! n) content n.

(** One round of the [while (true)] loop of [sinkDown]: the position to
    swap with, if any, together with the element found there. *)
Definition sinkDown_swap (len : nat) (elemScore : Z) (content : list A)
           (n : nat) : res (option (nat * A)) :=
  let child2N := ((n + 1) * 2)%nat in
  let child1N := (child2N - 1)%nat in
  r1 <-? (if (child1N <? len)%nat then
            match content !! child1N with
            | Some child1 =>
                let child1Score := scoreFunction child1 in
                Ok (if child1Score <? elemScore
                    then Some (child1N, child1) else None, child1Score)
            | None => Err TypeError
            end
          else Ok (None, 0));
  let '(swap, child1Score) := r1 in
  if (child2N <? len)%nat then
    match content !! child2N with
    | Some child2 =>
        let child2Score := scoreFunction child2 in
        Ok (if child2Score <?
                 (match swap with None => elemScore | Some _ => child1Score end)
            then Some (child2N, child2) else swap)
    | None => Err TypeError
    end
  else Ok swap.

Fixpoint sinkDown_loop (fuel : nat) (len : nat) (element : A)
         (elemScore : Z) (content : list A) (n : nat) : res (list A) :=
  match fuel with
  | O => Err OutOfFuel
  | S fuel' =>
      swap <-? sinkDown_swap len elemScore content n;
      match swap with
      | Some (s, child) =>
          sinkDown_loop fuel' len element elemScore
            (<[s := element]> (<[n := child]> content)) s
      | None => Ok content
      end
  end.

(** [length], [element] and [elemScore] are computed once, before the
    loop; scoring an absent element raises [TypeError]. *)
Definition sinkDown (content : list A) (n : nat) : res (list A) :=
  match content !! n with
  | Some element =>
      sinkDown_loop (length content) (length content) element
        (scoreFunction element) content n
  | None => Err TypeError
  end.

Definition push (content : list A) (element : A) : res (list A) :=
  let content := content ++ [element] in
  bubbleUp content (length content - 1).

(** [pop] returns the former root ([undefined], here [None], on an empty
    heap) and the new content.  [this.content.pop()] removes the last
    element. *)
Definition pop (content : list A) : res (option A * list A) :=
  let result := content !! 0%nat in
  let end_ := last content in
  let content := removelast content in
  if (0 <? length content)%nat then
    match end_ with
    | Some e =>
        content <-? sinkDown (<[0%nat := e]> content) 0;
        Ok (result, content)
    | None => Err TypeError
    end
  else Ok (result, content).

Definition peek (content : list A) : option A := content !! 0%nat.

Definition size (content : list A) : nat := length content.

End Heap.

Section HeapRemove.

Context {A : Type}.
Variable scoreFunction : A -> Z.

(** [x == node] on two payloads: identity for objects, equality for
    numbers. *)
Variable same : A -> A -> bool.

(** What a call of [remove] leaves: the new content, or the
    [Error("Node not found.")] it throws, or a runtime error. *)
Inductive removal : Type :=
  | Removed (content : list A)
  | NodeNotFound
  | RemoveFailed (e : error).

(** The body of the [if (this.content[i] == node)] of [remove], for the
    entry found at [i]: the last element is popped and, unless the entry
    was the last, put in its place and moved up or down. *)
Definition remove_at (len : nat) (node : A) (content : list A) (i : nat)
  : removal :=
  let end_ := last content in
  let content := removelast content in
  if negb (i =? len - 1)%nat then
    match end_ with
    | Some e =>
        let content := <[i := e]> content in
        match (if scoreFunction e <? scoreFunction node
               then bubbleUp scoreFunction content i
               else sinkDown scoreFunction content i) with
        | Ok c => Removed c
        | Err err => RemoveFailed err
        end
    | None => RemoveFailed TypeError
    end
  else Removed content.

(** The loop [for (var i = 0; i < len; i++)] of [remove], with [count]
    rounds left; [undefined == node] is false for a payload. *)
Fixpoint remove_scan (len : nat) (node : A) (content : list A)
         (count i : nat) : removal :=
  match count with
  | O => NodeNotFound
  | S count' =>
      match content !! i with
      | Some x =>
          if same x node then remove_at len node content i
          else remove_scan len node content count' (S i)
      | None => remove_scan len node content count' (S i)
      end
  end.

Definition remove (content : list A) (node : A) : removal :=
  remove_scan (length content) node content (length content) 0.

End HeapRemove.

End BinaryHeap.

(** ** The k-d tree (lines 27-170) *)

Module KdTree.

(** A [Node] object, or [null].  [obj] is the coordinate slice of the
    point (a view on the buffer; the regions sorted after the node is
    created are disjoint from it, so its contents no longer change),
    [parent] is the back reference, kept as the parent's [pos]. *)
Inductive tree : Type :=
  | Null
  | Node (obj : list Z) (left right : tree) (parent : option nat)
         (depth pos : nat).

Definition isNull (t : tree) : bool :=
  match t with Null => true | Node _ _ _ _ _ _ => false end.

(** [p[i]]; every read of the program is in range on well-formed input. *)
Definition coord (p : list Z) (i : nat) : Z := nth i p 0.

(** [a.subarray(b, e)]: both ends are clamped to the array. *)
Definition subarray (a : list Z) (b e : nat) : list Z :=
  take (e - b) (drop b a).

(** The two counters captured by the builder. *)
Record stats : Type := mkStats {
  maxDepth : nat;
  amountOfLeafDepthNodes : nat
}.

Section Build.

(** [quickSortIP(points, eleSize, dim)], the typed-array quicksort the
    file requires; it sorts the window in place, so the model takes
    the window and returns its new contents. *)
Variable quickSortIP : list Z -> nat -> nat -> list Z.
Variable eleSize : nat.

Definition getPointSet (points : list Z) (pos : nat) : list Z :=
  subarray points (pos * eleSize) (pos * eleSize + eleSize).

(** [buildTree] on a window of the buffer.  It returns the node, the
    contents of the window after the in-place sorts, and the counters.
    [plength = points.length / eleSize] is a real quotient: with
    [eleSize >= 1], as every theorem on the builder assumes, it is [0]
    iff the window is empty, [1] iff it has [eleSize] elements, and
    [Math.floor(plength / 2)] is [length / (2 * eleSize)].  The children
    are built on sub-windows that leave out the node's own slice, and
    the window after the call is the left window, the slice and the
    right window in this order. *)
Fixpoint buildTree (fuel : nat) (points : list Z) (depth : nat)
         (parent : option nat) (pos : nat) (st : stats)
  : res (tree * list Z * stats) :=
  match fuel with
  | O => Err OutOfFuel
  | S fuel' =>
      let dim := (depth mod eleSize)%nat in
      let st := if (maxDepth st <? depth)%nat
                then mkStats depth (amountOfLeafDepthNodes st) else st in
      if (length points =? 0)%nat then Ok (Null, points, st)
      else if (length points =? eleSize)%nat then
        Ok (Node (getPointSet points 0) Null Null parent depth pos,
            points,
            mkStats (maxDepth st) (S (amountOfLeafDepthNodes st)))
      else
        let len := length points in
        let points := quickSortIP points eleSize dim in
        let median := (len / (2 * eleSize))%nat in
        let obj := getPointSet points median in
        l <-? buildTree fuel' (subarray points 0 (median * eleSize))
                (depth + 1) (Some (median + pos)%nat) pos st;
        let '(ltree, lwin, st) := l in
        r <-? buildTree fuel' (subarray points ((median + 1) * eleSize) len)
                (depth + 1) (Some (median + pos)%nat)
                (pos + median + 1) st;
        let '(rtree, rwin, st) := r in
        Ok (Node obj ltree rtree parent depth (median + pos),
            lwin ++ obj ++ rwin, st)
  end.

(** The constructed object: [this.root], the two getters, and the
    caller's buffer as the build leaves it. *)
Record kdTree : Type := mkKdTree {
  root : tree;
  buffer : list Z;
  getMaxDepth : nat;
  getAmountOfLeafDepthNodes : nat
}.

Definition new_kdTree (points : list Z) : res kdTree :=
  r <-? buildTree (S (length points)) points 0 None 0 (mkStats 0 0);
  let '(t, buf, st) := r in
  Ok (mkKdTree t buf (maxDepth st) (amountOfLeafDepthNodes st)).

End Build.

(** A heap entry [[node, distance]]; the placeholder is [[null, d]]. *)
Abbreviation entry := (tree * Z)%type.

(** [function (e) { return -e[1]; }] *)
Definition negDistance (e : entry) : Z := - snd e.

(** The state a query mutates: the heap's [content], and a record of the
    nodes whose distance [metric(point, node.obj)] has been evaluated,
    by [pos], most recent first.  The record is not a variable of the
    source; it makes the progress of the traversal observable. *)
Record state : Type := mkState {
  bestNodes : list entry;
  visited : list nat
}.

Inductive outcome : Type :=
  | Done (s : state)
  | Throw (e : error) (s : state).

Section Search.

(** The arguments of the constructor and of [nearest].  [maxNodes] is an
    integer, possibly below one; a loop [for (i = 0; i < maxNodes; ...)]
    runs [Z.to_nat maxNodes] times. *)
Variable metric : list Z -> list Z -> Z.
Variable eleSize : nat.
Variable point : list Z.
Variable maxNodes : Z.

(** [bestNodes.size() < maxNodes || d < bestNodes.peek()[1]] *)
Definition hasRoomOrBeats (d : Z) (bn : list entry) : res bool :=
  if Z.of_nat (BinaryHeap.size bn) <? maxNodes then Ok true
  else match BinaryHeap.peek bn with
       | Some top => Ok (d <? snd top)
       | None => Err TypeError
       end.

Definition saveNode (node : tree) (distance : Z) (bn : list entry)
  : res (list entry) :=
  bn <-? BinaryHeap.push negDistance bn (node, distance);
  if maxNodes <? Z.of_nat (BinaryHeap.size bn) then
    r <-? BinaryHeap.pop negDistance bn; Ok (snd r)
  else Ok bn.

(** [if (size < maxNodes || ownDistance < peek()[1]) saveNode(..)] *)
Definition consider (node : tree) (ownDistance : Z) (s : state)
  : outcome :=
  match hasRoomOrBeats ownDistance (bestNodes s) with
  | Err e => Throw e s
  | Ok false => Done s
  | Ok true =>
      match saveNode node ownDistance (bestNodes s) with
      | Ok bn => Done (mkState bn (visited s))
      | Err e => Throw e s
      end
  end.

(** The probe point of lines 102-108. *)
Definition linearPoint (obj : list Z) (depth : nat) : list Z :=
  (fun i => if (i =? depth mod eleSize)%nat
            then coord point i else coord obj i) <$> seq 0 eleSize.

(** [nearestSearch].  [bestChild === node.left] compares references;
    the two children of a node are distinct objects unless both are
    [null] (the leaf case, which returns earlier), so the test is
    true exactly when [node.left] was chosen. *)
Fixpoint nearestSearch (node : tree) (s : state) : outcome :=
  match node with
  | Null => Throw TypeError s
  | Node obj lchild rchild _ depth pos =>
      let dimension := (depth mod eleSize)%nat in
      let ownDistance := metric point obj in
      let s := mkState (bestNodes s) (pos :: visited s) in
      let linearDistance := metric (linearPoint obj depth) obj in
      if isNull rchild && isNull lchild then consider node ownDistance s
      else
        let bestIsLeft :=
          if isNull rchild then true
          else if isNull lchild then false
          else coord point dimension <? coord obj dimension in
        match nearestSearch (if bestIsLeft then lchild else rchild) s with
        | Throw e s => Throw e s
        | Done s =>
            match consider node ownDistance s with
            | Throw e s => Throw e s
            | Done s =>
                match hasRoomOrBeats (Z.abs linearDistance) (bestNodes s) with
                | Err e => Throw e s
                | Ok false => Done s
                | Ok true =>
                    let otherChild := if bestIsLeft then rchild else lchild in
                    if isNull otherChild then Done s
                    else nearestSearch otherChild s
                end
            end
        end
  end.

(** [for (i = 0; i < maxNodes; i += 1) bestNodes.push([null, d])] *)
Fixpoint preseed (count : nat) (d : Z) (bn : list entry)
  : res (list entry) :=
  match count with
  | O => Ok bn
  | S count' =>
      bn <-? BinaryHeap.push negDistance bn (Null, d);
      preseed count' d bn
  end.

(** The loop of lines 162-166; [bestNodes.content[i]] is [undefined]
    past the end of the array, and reading its [[0]] throws. *)
Fixpoint collect (count : nat) (i : nat) (bn : list entry)
         (result : list entry) : res (list entry) :=
  match count with
  | O => Ok result
  | S count' =>
      match bn !! i with
      | None => Err TypeError
      | Some (n, d) =>
          collect count' (S i) bn
            (if isNull n then result else result ++ [(n, d)])
      end
  end.

(** [if (maxDistance)]: [undefined] and [0] are falsy. *)
Definition truthy (maxDistance : option Z) : bool :=
  match maxDistance with
  | Some d => negb (d =? 0)
  | None => false
  end.

Definition nearest (root : tree) (maxDistance : option Z)
  : res (list entry) * state :=
  let seeded :=
    match maxDistance with
    | Some d => if truthy maxDistance
                then preseed (Z.to_nat maxNodes) d [] else Ok []
    | None => Ok []
    end in
  match seeded with
  | Err e => (Err e, mkState [] [])
  | Ok bn =>
      match nearestSearch root (mkState bn []) with
      | Throw e s => (Err e, s)
      | Done s => (collect (Z.to_nat maxNodes) 0 (bestNodes s) [], s)
      end
  end.

End Search.

End KdTree.

(** * Specification predicates *)

Section HeapSpec.

Context {A : Type}.
Variable score : A -> Z.

(** Every entry scores at most as much as its two children, at [2n+1] and
    [2n+2]. *)
Definition heapProperty (c : list A) : Prop :=
  forall (n m : nat) (x y : A),
    c !! n = Some x -> c !! m = Some y ->
    (m = 2 * n + 1 \/ m = 2 * n + 2)%nat -> score x <= score y.

(** The same property read from the child: every entry but the root
    scores at least as much as its parent, at [floor((n+1)/2)-1]. *)
Definition parentProperty (c : list A) : Prop :=
  forall (m : nat) (x y : A),
    (0 < m)%nat -> c !! m = Some y ->
    c !! BinaryHeap.parentIndex m = Some x -> score x <= score y.

(** The invariant of the loop of [bubbleUp] at [n]: the heap is ordered
    except between [n] and its parent, and the parent of [n] is below the
    children of [n]. *)
Definition upInv (c : list A) (n : nat) : Prop :=
  (forall (m : nat) (x y : A),
      (0 < m)%nat -> m <> n -> c !! m = Some y ->
      c !! BinaryHeap.parentIndex m = Some x -> score x <= score y) /\
  (forall (m : nat) (x y : A),
      (0 < n)%nat -> (0 < m)%nat -> BinaryHeap.parentIndex m = n ->
      c !! m = Some y ->
      c !! BinaryHeap.parentIndex n = Some x -> score x <= score y).

(** The invariant of the loop of [sinkDown] at [n]: the heap is ordered
    except between [n] and its children, and the parent of [n] is below
    the children of [n]. *)
Definition downInv (c : list A) (n : nat) : Prop :=
  (forall (m : nat) (x y : A),
      (0 < m)%nat -> BinaryHeap.parentIndex m <> n -> c !! m = Some y ->
      c !! BinaryHeap.parentIndex m = Some x -> score x <= score y) /\
  (forall (m : nat) (x y : A),
      (0 < n)%nat -> (0 < m)%nat -> BinaryHeap.parentIndex m = n ->
      c !! m = Some y ->
      c !! BinaryHeap.parentIndex n = Some x -> score x <= score y).

(** A heap operation, and a run of operations from a given content. *)
Inductive heapOp : Type :=
  | OpPush (element : A)
  | OpPop.

Fixpoint runOps (ops : list heapOp) (c : list A) : res (list A) :=
  match ops with
  | [] => Ok c
  | OpPush e :: ops' => c' <-? BinaryHeap.push score c e; runOps ops' c'
  | OpPop :: ops' => r <-? BinaryHeap.pop score c; runOps ops' (snd r)
  end.

End HeapSpec.

Section TreeSpec.

Variable eleSize : nat.

Definition objOf (t : KdTree.tree) : list Z :=
  match t with KdTree.Null => [] | KdTree.Node o _ _ _ _ _ => o end.

Definition posOf (t : KdTree.tree) : nat :=
  match t with KdTree.Null => 0%nat | KdTree.Node _ _ _ _ _ p => p end.

(** The nodes of a tree, left subtree first. *)
Fixpoint inorder (t : KdTree.tree) : list KdTree.tree :=
  match t with
  | KdTree.Null => []
  | KdTree.Node _ l r _ _ _ => inorder l ++ t :: inorder r
  end.

(** The points held by the nodes of a tree. *)
Definition objs (t : KdTree.tree) : list (list Z) := objOf <$> inorder t.

(** The points of a flat buffer, in buffer order. *)
Definition pointsOf (buf : list Z) : list (list Z) :=
  KdTree.getPointSet eleSize buf <$> seq 0 (length buf / eleSize).

(** The partition invariant: at every node, with [a = depth mod eleSize],
    the left subtree lies at or below the node on axis [a] and the right
    subtree at or above it. *)
Fixpoint ordered (t : KdTree.tree) : Prop :=
  match t with
  | KdTree.Null => True
  | KdTree.Node o l r _ d _ =>
      let a := (d mod eleSize)%nat in
      Forall (fun p => KdTree.coord p a <= KdTree.coord o a) (objs l) /\
      Forall (fun p => KdTree.coord o a <= KdTree.coord p a) (objs r) /\
      ordered l /\ ordered r
  end.

(** The [depth] fields count the edges from the root. *)
Fixpoint depthsFrom (d : nat) (t : KdTree.tree) : Prop :=
  match t with
  | KdTree.Null => True
  | KdTree.Node _ l r _ d' _ =>
      d' = d /\ depthsFrom (d + 1) l /\ depthsFrom (d + 1) r
  end.

Definition sortedAlong (dim : nat) (ps : list (list Z)) : Prop :=
  forall (i j : nat) (p q : list Z),
    (i <= j)%nat -> ps !! i = Some p -> ps !! j = Some q ->
    KdTree.coord p dim <= KdTree.coord q dim.

(** What the builder needs of [quickSortIP]: it works in place (the
    window keeps its length), and on a window of whole points it permutes
    the points and leaves them in ascending order on the given axis. *)
Definition keepsLength (quickSortIP : list Z -> nat -> nat -> list Z) : Prop :=
  forall (buf : list Z) (dim : nat),
    length (quickSortIP buf eleSize dim) = length buf.

Definition sortsAlongAxis (quickSortIP : list Z -> nat -> nat -> list Z)
  : Prop :=
  forall (buf : list Z) (dim : nat),
    (length buf mod eleSize = 0)%nat -> (dim < eleSize)%nat ->
    pointsOf (quickSortIP buf eleSize dim) ≡ₚ pointsOf buf /\
    sortedAlong dim (pointsOf (quickSortIP buf eleSize dim)).

End TreeSpec.

Section SearchSpec.

Variable metric : list Z -> list Z -> Z.
Variable eleSize : nat.

(** The candidates a tree offers to a query: each node with its
    distance to the query point. *)
Definition entriesOf (point : list Z) (t : KdTree.tree) : list KdTree.entry :=
  (fun n => (n, metric point (objOf n))) <$> inorder t.

(** The metric is non-negative. *)
Definition nonNegative : Prop :=
  forall a b : list Z, 0 <= metric a b.

(** The metric is monotonic per axis: the distance from the query to the
    splitting hyperplane of a node, measured as the source does by moving
    the node along that one axis, never exceeds the distance from the
    query to a point lying on the other side of the hyperplane. *)
Definition perAxisMonotonic : Prop :=
  forall (point obj p : list Z) (depth : nat),
    length point = eleSize -> length obj = eleSize -> length p = eleSize ->
    let a := (depth mod eleSize)%nat in
    (KdTree.coord point a <= KdTree.coord obj a <= KdTree.coord p a \/
     KdTree.coord p a <= KdTree.coord obj a <= KdTree.coord point a) ->
    metric (KdTree.linearPoint eleSize point obj depth) obj <= metric point p.

(** What the search keeps of its heap while no radius is given: with
    [k] the capacity and [D] the candidates turned down so far, the heap
    is ordered and holds at most [k] entries, nothing is turned down
    while there is room, and nothing turned down is nearer than an entry
    kept. *)
Definition bestInv (k : nat) (bn D : list KdTree.entry) : Prop :=
  heapProperty KdTree.negDistance bn /\
  (length bn <= k)%nat /\
  ((length bn < k)%nat -> D = []) /\
  (forall x y : KdTree.entry, x ∈ D -> y ∈ bn -> snd y <= snd x).

(** A tree with whole points that satisfies the partition invariant. *)
Definition validTree (t : KdTree.tree) : Prop :=
  ordered eleSize t /\ Forall (fun p => length p = eleSize) (objs t).

(** The contract of [nearestSearch] on a subtree, without radius. *)
Definition searchSpec (point : list Z) (maxNodes : Z) (t : KdTree.tree)
  : Prop :=
  forall (s : KdTree.state) (D : list KdTree.entry),
    bestInv (Z.to_nat maxNodes) (KdTree.bestNodes s) D ->
    exists (s' : KdTree.state) (D' : list KdTree.entry),
      KdTree.nearestSearch metric eleSize point maxNodes t s = KdTree.Done s' /\
      bestInv (Z.to_nat maxNodes) (KdTree.bestNodes s') D' /\
      KdTree.bestNodes s' ++ D' ≡ₚ entriesOf point t ++ KdTree.bestNodes s ++ D.

End SearchSpec.

(** ** The brute-force reference *)

Section BruteForce.

Context {X : Type}.
Variable key : X -> Z.

Fixpoint insertBy (x : X) (l : list X) : list X :=
  match l with
  | [] => [x]
  | y :: l' => if key x <=? key y then x :: y :: l' else y :: insertBy x l'
  end.

Definition sortBy (l : list X) : list X := foldr insertBy [] l.

End BruteForce.

(** A linear scan: the distance of every point to the query, the pairs
    put in ascending order of distance, and the first [k] kept. *)
Definition bruteForce (metric : list Z -> list Z -> Z) (point : list Z)
           (k : nat) (pts : list (list Z)) : list (list Z * Z) :=
  take k (sortBy snd ((fun p => (p, metric point p)) <$> pts)).

(** ** Stand-ins for the two functions the file takes from outside *)

(** The metric of the header's example, [Math.pow(a[0] - b[0], 2) + ...],
    for any number of coordinates: the squared Euclidean distance. *)
Fixpoint sqDist (a b : list Z) : Z :=
  match a, b with
  | x :: a', y :: b' => (x - y) ^ 2 + sqDist a' b'
  | _, _ => 0
  end.

(** Modelled from the spec: [quickSortIP], the typed-array quicksort the
    file requires, is not part of the sources.  The specification asks it
    to reorder the window in place by ascending coordinate value along
    the axis; this stand-in sorts the whole points of the window by
    insertion and leaves a ragged tail where it is. *)
Definition quickSortIP_model (points : list Z) (eleSize dim : nat) : list Z :=
  concat (sortBy (fun p => KdTree.coord p dim) (pointsOf eleSize points))
  ++ drop (length points / eleSize * eleSize) points.

(** ** Statements read off the specification *)


(** [node.right === null && node.left === null], the leaf test of
    line 113. *)
Definition isLeaf (t : KdTree.tree) : bool :=
  match t with
  | KdTree.Null => false
  | KdTree.Node _ l r _ _ _ => KdTree.isNull r && KdTree.isNull l
  end.

(** The way down by [bestChild] (lines 113-133): the nodes on which
    [nearestSearch] is called before anything is compared with the heap,
    from the node given to the first leaf, in the order they are
    entered. *)
Fixpoint descent (eleSize : nat) (point : list Z) (t : KdTree.tree)
  : list KdTree.tree :=
  match t with
  | KdTree.Null => []
  | KdTree.Node obj l r _ depth _ =>
      t :: (if KdTree.isNull r && KdTree.isNull l then []
            else descent eleSize point
                   (if (if KdTree.isNull r then true
                        else if KdTree.isNull l then false
                             else KdTree.coord point (depth mod eleSize)
                                  <? KdTree.coord obj (depth mod eleSize))
                    then l else r))
  end.

(** "[k < 1] is rejected before traversal begins": the query fails with
    no node visited and nothing on the heap. *)
Definition rejectedBeforeTraversal (r : res (list KdTree.entry) * KdTree.state)
  : Prop :=
  exists e : error,
    fst r = Err e /\ KdTree.visited (snd r) = [] /\
    KdTree.bestNodes (snd r) = [].

(** "No returned distance exceeds [d]". *)
Definition withinRadius (d : Z) (r : res (list KdTree.entry) * KdTree.state)
  : Prop :=
  forall result : list KdTree.entry,
    fst r = Ok result -> Forall (fun x => snd x <= d) result.

(** "The node's index is the point's position in the original input
    ordering": the coordinates at that position of the buffer given to
    the builder are those of the node. *)
Definition indexesBuffer (eleSize : nat) (buf : list Z) (t : KdTree.tree)
  : Prop :=
  forall n : KdTree.tree,
    n ∈ inorder t -> KdTree.getPointSet eleSize buf (posOf n) = objOf n.

(** What a caller reads in a result: the point of each node with its
    distance. *)
Definition pairsOf (r : res (list KdTree.entry)) : res (list (list Z * Z)) :=
  match r with
  | Ok l => Ok ((fun x => (objOf (fst x), snd x)) <$> l)
  | Err e => Err e
  end.

(** The points of the specification's literal scenario, flattened. *)
Definition scenario : list Z := [0; 0; 1; 0; 0; 1; 5; 5].

(** The tree the builder makes of the scenario. *)
Definition scenarioTree : KdTree.tree :=
  Eval vm_compute in
    match KdTree.new_kdTree quickSortIP_model 2 scenario with
    | Ok t => KdTree.root t
    | Err _ => KdTree.Null
    end.

(** ** Further vocabulary *)

Section HeapUse.

Context {A : Type}.
Variable score : A -> Z.

(** Emptying a heap: [pop] until it returns [undefined], the entries in
    the order they come out. *)
Fixpoint popAll (fuel : nat) (c : list A) : res (list A) :=
  match fuel with
  | O => Ok []
  | S fuel' =>
      r <-? BinaryHeap.pop score c;
      match fst r with
      | None => Ok []
      | Some x => rest <-? popAll fuel' (snd r); Ok (x :: rest)
      end
  end.

End HeapUse.

Definition depthOf (t : KdTree.tree) : nat :=
  match t with KdTree.Null => 0%nat | KdTree.Node _ _ _ _ d _ => d end.

(** The nodes without children. *)
Fixpoint countLeaves (t : KdTree.tree) : nat :=
  match t with
  | KdTree.Null => 0%nat
  | KdTree.Node _ l r _ _ _ =>
      if KdTree.isNull l && KdTree.isNull r then 1%nat
      else (countLeaves l + countLeaves r)%nat
  end.

(** Every node names its parent: [par] at the root of the subtree, the
    node's own [pos] below it. *)
Fixpoint parentsFrom (par : option nat) (t : KdTree.tree) : Prop :=
  match t with
  | KdTree.Null => True
  | KdTree.Node _ l r par' _ p =>
      par' = par /\ parentsFrom (Some p) l /\ parentsFrom (Some p) r
  end.

(** The state an outcome leaves, whether the call returned or threw. *)
Definition stateOf (o : KdTree.outcome) : KdTree.state :=
  match o with KdTree.Done s => s | KdTree.Throw _ s => s end.

(** The linear scan restricted to the points strictly nearer than [d]. *)
Definition bruteForceWithin (metric : list Z -> list Z -> Z) (point : list Z)
           (k : nat) (d : Z) (pts : list (list Z)) : list (list Z * Z) :=
  take k (sortBy snd
            (filter (fun x => snd x < d)
                    ((fun p => (p, metric point p)) <$> pts))).

(** * Properties *)

(** ** The binary heap *)

Section HeapFacts.

Local Open Scope nat_scope.

Context {A : Type}.
Variable score : A -> Z.

Lemma parentIndex_lt (m : nat) : 0 < m -> BinaryHeap.parentIndex m < m.
Proof. unfold BinaryHeap.parentIndex. lia. Qed.

Lemma parentIndex_child (n m : nat) :
  m = 2 * n + 1 \/ m = 2 * n + 2 <-> 0 < m /\ BinaryHeap.parentIndex m = n.
Proof. unfold BinaryHeap.parentIndex. lia. Qed.

Lemma heapProperty_parent (c : list A) :
  heapProperty score c <-> parentProperty score c.
Proof.
  split.
  - intros H m x y Hm Hy Hx.
    apply (H (BinaryHeap.parentIndex m) m x y Hx Hy).
    apply parentIndex_child. auto.
  - intros H n m x y Hx Hy Hc.
    apply parentIndex_child in Hc as [Hm Hp].
    apply (H m x y Hm Hy). now rewrite Hp.
Qed.

Lemma lookup_swap (c : list A) (i j : nat) (a b : A) (k : nat) :
  i < length c -> j < length c -> i <> j ->
  <[i:=a]> (<[j:=b]> c) !! k =
  if decide (k = i) then Some a
  else if decide (k = j) then Some b else c !! k.
Proof.
  intros Hi Hj Hij.
  destruct (decide (k = i)) as [->|Hki].
  - apply list_lookup_insert_eq. now rewrite length_insert.
  - rewrite list_lookup_insert_ne by auto.
    destruct (decide (k = j)) as [->|Hkj].
    + now apply list_lookup_insert_eq.
    + now apply list_lookup_insert_ne.
Qed.

(** The root of an ordered heap has the least score. *)
Lemma parentProperty_root_min (c : list A) (x : A) :
  parentProperty score c -> c !! 0 = Some x ->
  forall (m : nat) (y : A), c !! m = Some y -> (score x <= score y)%Z.
Proof.
  intros H H0 m. induction m as [m IH] using lt_wf_ind. intros y Hy.
  destruct (decide (m = 0)) as [->|Hm].
  - rewrite H0 in Hy. injection Hy as ->. lia.
  - assert (Hlt : BinaryHeap.parentIndex m < m) by (apply parentIndex_lt; lia).
    destruct (c !! BinaryHeap.parentIndex m) as [z|] eqn:Ez.
    + specialize (IH _ Hlt z Ez).
      assert (score z <= score y)%Z by (apply (H m z y); auto; lia). lia.
    + apply lookup_ge_None in Ez. apply lookup_lt_Some in Hy. lia.
Qed.

(** *** bubbleUp *)

Lemma upInv_step (c : list A) (n : nat) (e p : A) :
  0 < n -> c !! n = Some e -> c !! BinaryHeap.parentIndex n = Some p ->
  (score e < score p)%Z -> upInv score c n ->
  upInv score (<[n:=p]> (<[BinaryHeap.parentIndex n:=e]> c))
        (BinaryHeap.parentIndex n).
Proof.
  intros Hn He Hp Hlt [H1 H2].
  pose proof (parentIndex_lt n Hn) as Hpn.
  pose proof (lookup_lt_Some _ _ _ He) as Hlen.
  assert (Hsw : forall k,
             <[n:=p]> (<[BinaryHeap.parentIndex n:=e]> c) !! k =
             if decide (k = n) then Some p
             else if decide (k = BinaryHeap.parentIndex n) then Some e
                  else c !! k)
    by (intros k; apply lookup_swap; lia).
  split.
  - intros m x y Hm Hne Hy Hx. rewrite Hsw in Hy, Hx.
    destruct (decide (m = n)) as [->|Hmn].
    + injection Hy as <-.
      destruct (decide (BinaryHeap.parentIndex n = n)); [lia|].
      destruct (decide (BinaryHeap.parentIndex n = BinaryHeap.parentIndex n));
        [|congruence].
      injection Hx as <-. lia.
    + destruct (decide (m = BinaryHeap.parentIndex n)); [congruence|].
      destruct (decide (BinaryHeap.parentIndex m = n)) as [Hpm|Hpm].
      * injection Hx as <-. apply (H2 m p y); auto.
      * destruct (decide (BinaryHeap.parentIndex m = BinaryHeap.parentIndex n))
          as [Hpp|Hpp].
        -- injection Hx as <-.
           assert (score p <= score y)%Z
             by (apply (H1 m p y); auto; now rewrite Hpp).
           lia.
        -- apply (H1 m x y); auto.
  - intros m x y Hpn0 Hm Hpm Hy Hx. rewrite Hsw in Hy, Hx.
    pose proof (parentIndex_lt _ Hpn0) as Hppn.
    destruct (decide (BinaryHeap.parentIndex (BinaryHeap.parentIndex n) = n));
      [lia|].
    destruct (decide (BinaryHeap.parentIndex (BinaryHeap.parentIndex n)
                      = BinaryHeap.parentIndex n)); [lia|].
    assert (Hxp : (score x <= score p)%Z)
      by (apply (H1 (BinaryHeap.parentIndex n) x p); auto; lia).
    destruct (decide (m = n)) as [->|Hmn].
    + injection Hy as <-. exact Hxp.
    + pose proof (parentIndex_lt m Hm).
      destruct (decide (m = BinaryHeap.parentIndex n)); [lia|].
      assert (score p <= score y)%Z
        by (apply (H1 m p y); auto; now rewrite Hpm).
      lia.
Qed.

Lemma bubbleUp_loop_correct (fuel : nat) :
  forall (n : nat) (c : list A) (e : A),
    n <= fuel -> c !! n = Some e ->
    exists c', BinaryHeap.bubbleUp_loop score fuel (Some e) c n = Ok c' /\
               c' ≡ₚ c /\
               (upInv score c n -> parentProperty score c').
Proof.
  induction fuel as [|fuel IH]; intros n c e Hfuel He.
  - assert (n = 0) by lia. subst n. exists c. cbn.
    repeat split; auto. intros [H1 _] m x y Hm. apply H1; auto. lia.
  - cbn [BinaryHeap.bubbleUp_loop].
    destruct (0 <? n) eqn:Hn0.
    + apply Nat.ltb_lt in Hn0.
      pose proof (parentIndex_lt n Hn0) as Hpn.
      pose proof (lookup_lt_Some _ _ _ He) as Hlen.
      destruct (c !! BinaryHeap.parentIndex n) as [p|] eqn:Hp;
        [|apply lookup_ge_None in Hp; lia].
      cbn [BinaryHeap.scoreOf rbind].
      destruct (score e <? score p)%Z eqn:Hcmp.
      * apply Z.ltb_lt in Hcmp.
        destruct (IH (BinaryHeap.parentIndex n)
                     (<[n:=p]> (<[BinaryHeap.parentIndex n:=e]> c)) e)
          as (c' & Hrun & Hperm & Hinv).
        -- lia.
        -- rewrite lookup_swap by lia.
           destruct (decide (BinaryHeap.parentIndex n = n)); [lia|].
           destruct (decide (BinaryHeap.parentIndex n = BinaryHeap.parentIndex n));
             congruence.
        -- exists c'. split; [exact Hrun|]. split.
           ++ rewrite Hperm. now apply Permutation_insert_swap.
           ++ intros Hup. apply Hinv. now apply upInv_step.
      * apply Z.ltb_ge in Hcmp. exists c. repeat split; auto.
        intros [H1 _] m x y Hm Hy Hx.
        destruct (decide (m = n)) as [->|Hmn].
        -- rewrite He in Hy. rewrite Hp in Hx.
           injection Hy as <-. injection Hx as <-. lia.
        -- apply (H1 m x y); auto.
    + apply Nat.ltb_ge in Hn0. assert (n = 0) by lia. subst n.
      exists c. repeat split; auto.
      intros [H1 _] m x y Hm. apply H1; auto. lia.
Qed.

Lemma push_correct (c : list A) (e : A) :
  exists c', BinaryHeap.push score c e = Ok c' /\
             c' ≡ₚ e :: c /\
             (heapProperty score c -> heapProperty score c').
Proof.
  unfold BinaryHeap.push, BinaryHeap.bubbleUp.
  assert (Hlen : length (c ++ [e]) - 1 = length c)
    by (rewrite length_app; cbn; lia).
  rewrite Hlen.
  assert (He : (c ++ [e]) !! length c = Some e)
    by (apply lookup_snoc_Some; right; auto).
  rewrite He.
  destruct (bubbleUp_loop_correct (length c) (length c) (c ++ [e]) e)
    as (c' & Hrun & Hperm & Hinv); auto.
  exists c'. split; [exact Hrun|]. split.
  - rewrite Hperm. symmetry. apply Permutation_cons_append.
  - intros Hheap. apply heapProperty_parent. apply Hinv.
    apply heapProperty_parent in Hheap. split.
    + intros m x y Hm Hne Hy Hx.
      apply lookup_snoc_Some in Hy as [[Hlt Hy]|[Heq _]]; [|congruence].
      pose proof (parentIndex_lt m Hm).
      rewrite lookup_app_l in Hx by lia.
      apply (Hheap m x y); auto.
    + intros m x y _ Hm Hpm Hy _.
      apply lookup_lt_Some in Hy. rewrite length_app in Hy. cbn in Hy.
      pose proof (parentIndex_lt m Hm). lia.
Qed.

(** *** sinkDown *)

(** What one round of [sinkDown] selects: nothing when no child scores
    below the element, else the child of least score. *)
Lemma sinkDown_swap_correct (c : list A) (n : nat) (es : Z) :
  exists sw,
    BinaryHeap.sinkDown_swap score (length c) es c n = Ok sw /\
    match sw with
    | None =>
        forall (m : nat) (y : A),
          m = 2 * n + 1 \/ m = 2 * n + 2 -> c !! m = Some y ->
          (es <= score y)%Z
    | Some (s, child) =>
        (s = 2 * n + 1 \/ s = 2 * n + 2) /\ c !! s = Some child /\
        (score child < es)%Z /\
        forall (m : nat) (y : A),
          m = 2 * n + 1 \/ m = 2 * n + 2 -> c !! m = Some y ->
          (score child <= score y)%Z
    end.
Proof.
  unfold BinaryHeap.sinkDown_swap.
  replace ((n + 1) * 2 - 1) with (2 * n + 1) by lia.
  replace ((n + 1) * 2) with (2 * n + 2) by lia.
  destruct (2 * n + 1 <? length c) eqn:E1.
  - apply Nat.ltb_lt in E1.
    destruct (c !! (2 * n + 1)) as [child1|] eqn:L1;
      [|apply lookup_ge_None in L1; lia].
    cbn [rbind].
    destruct (2 * n + 2 <? length c) eqn:E2.
    + apply Nat.ltb_lt in E2.
      destruct (c !! (2 * n + 2)) as [child2|] eqn:L2;
        [|apply lookup_ge_None in L2; lia].
      destruct (score child1 <? es)%Z eqn:C1.
      * apply Z.ltb_lt in C1.
        destruct (score child2 <? score child1)%Z eqn:C2.
        -- apply Z.ltb_lt in C2. eexists. split; [reflexivity|].
           repeat split; auto; [lia|].
           intros m y [->| ->] Hy; rewrite Hy in *; simplify_eq; lia.
        -- apply Z.ltb_ge in C2. eexists. split; [reflexivity|].
           repeat split; auto.
           intros m y [->| ->] Hy; rewrite Hy in *; simplify_eq; lia.
      * apply Z.ltb_ge in C1.
        destruct (score child2 <? es)%Z eqn:C2.
        -- apply Z.ltb_lt in C2. eexists. split; [reflexivity|].
           repeat split; auto.
           intros m y [->| ->] Hy; rewrite Hy in *; simplify_eq; lia.
        -- apply Z.ltb_ge in C2. eexists. split; [reflexivity|].
           intros m y [->| ->] Hy; rewrite Hy in *; simplify_eq; lia.
    + apply Nat.ltb_ge in E2.
      destruct (score child1 <? es)%Z eqn:C1.
      * apply Z.ltb_lt in C1. eexists. split; [reflexivity|].
        repeat split; auto.
        intros m y [->| ->] Hy; [rewrite Hy in *; simplify_eq; lia|].
        apply lookup_lt_Some in Hy. lia.
      * apply Z.ltb_ge in C1. eexists. split; [reflexivity|].
        intros m y [->| ->] Hy; [rewrite Hy in *; simplify_eq; lia|].
        apply lookup_lt_Some in Hy. lia.
  - apply Nat.ltb_ge in E1. cbn [rbind].
    destruct (2 * n + 2 <? length c) eqn:E2;
      [apply Nat.ltb_lt in E2; lia|].
    eexists. split; [reflexivity|].
    intros m y Hm Hy. apply lookup_lt_Some in Hy. lia.
Qed.

Lemma downInv_step (c : list A) (n s : nat) (element child : A) :
  c !! n = Some element -> c !! s = Some child ->
  s = 2 * n + 1 \/ s = 2 * n + 2 ->
  (score child < score element)%Z ->
  (forall (m : nat) (y : A),
      m = 2 * n + 1 \/ m = 2 * n + 2 -> c !! m = Some y ->
      (score child <= score y)%Z) ->
  downInv score c n ->
  downInv score (<[s:=element]> (<[n:=child]> c)) s.
Proof.
  intros He Hc Hs Hlt Hmin [H1 H2].
  pose proof (lookup_lt_Some _ _ _ He) as Hlen.
  pose proof (lookup_lt_Some _ _ _ Hc) as Hlens.
  assert (Hps : 0 < s /\ BinaryHeap.parentIndex s = n)
    by (now apply parentIndex_child).
  destruct Hps as [Hs0 Hps].
  assert (Hsw : forall k,
             <[s:=element]> (<[n:=child]> c) !! k =
             if decide (k = s) then Some element
             else if decide (k = n) then Some child else c !! k)
    by (intros k; apply lookup_swap; lia).
  split.
  - intros m x y Hm Hne Hy Hx. rewrite Hsw in Hy, Hx.
    pose proof (parentIndex_lt m Hm) as Hpm.
    destruct (decide (BinaryHeap.parentIndex m = s)); [congruence|].
    destruct (decide (BinaryHeap.parentIndex m = n)) as [Hpn|Hpn].
    + injection Hx as <-.
      destruct (decide (m = s)) as [->|Hms].
      * injection Hy as <-. lia.
      * destruct (decide (m = n)); [lia|].
        apply (Hmin m y); auto. apply parentIndex_child. auto.
    + destruct (decide (m = s)) as [->|Hms]; [congruence|].
      destruct (decide (m = n)) as [->|Hmn].
      * injection Hy as <-. apply (H2 s x child); auto.
      * apply (H1 m x y); auto.
  - intros m x y _ Hm Hpm Hy Hx. rewrite Hsw in Hy, Hx.
    pose proof (parentIndex_lt m Hm) as Hlt'.
    rewrite Hps in Hx.
    destruct (decide (n = s)); [lia|].
    destruct (decide (n = n)); [|congruence].
    injection Hx as <-.
    destruct (decide (m = s)); [lia|].
    destruct (decide (m = n)); [lia|].
    apply (H1 m child y); auto; [lia|]. now rewrite Hpm.
Qed.

Lemma sinkDown_loop_correct (element : A) (fuel : nat) :
  forall (n : nat) (c : list A),
    length c - n <= fuel -> c !! n = Some element ->
    exists c',
      BinaryHeap.sinkDown_loop score fuel (length c) element
        (score element) c n = Ok c' /\
      c' ≡ₚ c /\
      (downInv score c n -> parentProperty score c').
Proof.
  induction fuel as [|fuel IH]; intros n c Hfuel He.
  - apply lookup_lt_Some in He. lia.
  - cbn [BinaryHeap.sinkDown_loop].
    destruct (sinkDown_swap_correct c n (score element)) as (sw & -> & Hsw).
    cbn [rbind]. destruct sw as [[s child]|].
    + destruct Hsw as (Hs & Hc & Hlt & Hmin).
      pose proof (lookup_lt_Some _ _ _ He) as Hlen.
      pose proof (lookup_lt_Some _ _ _ Hc) as Hlens.
      destruct (IH s (<[s:=element]> (<[n:=child]> c)))
        as (c' & Hrun & Hperm & Hinv).
      * rewrite !length_insert. lia.
      * rewrite lookup_swap by lia.
        destruct (decide (s = s)); congruence.
      * rewrite !length_insert in Hrun.
        exists c'. split; [exact Hrun|]. split.
        -- rewrite Hperm. now apply Permutation_insert_swap.
        -- intros Hdown. apply Hinv. now apply downInv_step.
    + exists c. repeat split; auto.
      intros [H1 _] m x y Hm Hy Hx.
      destruct (decide (BinaryHeap.parentIndex m = n)) as [Hpm|Hpm].
      * rewrite Hpm, He in Hx. injection Hx as <-.
        apply (Hsw m y); auto. apply parentIndex_child. auto.
      * apply (H1 m x y); auto.
Qed.

Lemma sinkDown_correct (c : list A) (n : nat) (element : A) :
  c !! n = Some element ->
  exists c', BinaryHeap.sinkDown score c n = Ok c' /\
             c' ≡ₚ c /\
             (downInv score c n -> parentProperty score c').
Proof.
  intros He. unfold BinaryHeap.sinkDown. rewrite He.
  apply sinkDown_loop_correct; auto. lia.
Qed.

(** *** pop *)

Lemma pop_empty : BinaryHeap.pop score (@nil A) = Ok (None, []).
Proof. reflexivity. Qed.

Lemma pop_correct (x : A) (rest : list A) :
  exists c', BinaryHeap.pop score (x :: rest) = Ok (Some x, c') /\
             c' ≡ₚ rest /\
             (heapProperty score (x :: rest) -> heapProperty score c').
Proof.
  destruct rest as [|r rest'].
  - exists []. cbn. repeat split; auto.
    intros _ n m a b Ha. discriminate.
  - destruct (exists_last (l:=r :: rest')) as (l & e & Hl); [discriminate|].
    rewrite Hl. unfold BinaryHeap.pop.
    rewrite app_comm_cons, last_snoc, removelast_last.
    cbn [length Nat.ltb Nat.leb]. cbn [insert list_insert].
    destruct (sinkDown_correct (e :: l) 0 e) as (c' & Hrun & Hperm & Hinv);
      [reflexivity|].
    rewrite Hrun. cbn [rbind]. exists c'. split; [reflexivity|]. split.
    + rewrite Hperm. apply Permutation_cons_append.
    + intros Hheap. apply heapProperty_parent. apply Hinv.
      apply heapProperty_parent in Hheap. split; [|intros; lia].
      intros m a b Hm Hpm Hb Ha.
      pose proof (lookup_lt_Some _ _ _ Hb) as Hlt. cbn in Hlt.
      pose proof (parentIndex_lt m Hm) as Hlt'.
      destruct m as [|m']; [lia|].
      destruct (BinaryHeap.parentIndex (S m')) as [|p'] eqn:Hp; [congruence|].
      cbn in Ha, Hb.
      apply (Hheap (S m') a b); auto.
      * rewrite lookup_app_l by (cbn; lia). exact Hb.
      * rewrite Hp, lookup_app_l by (cbn; lia). exact Ha.
Qed.

(** *** Runs of operations *)

Lemma runOps_correct (ops : list (heapOp (A:=A))) :
  forall c : list A,
    exists c', runOps score ops c = Ok c' /\
               (heapProperty score c -> heapProperty score c').
Proof.
  induction ops as [|op ops IH]; intros c.
  - exists c. split; auto.
  - destruct op as [e|]; cbn [runOps].
    + destruct (push_correct c e) as (c1 & -> & _ & H1). cbn [rbind].
      destruct (IH c1) as (c' & -> & H'). exists c'. split; auto.
    + destruct c as [|x rest].
      * rewrite pop_empty. cbn [rbind snd].
        destruct (IH []) as (c' & -> & H'). exists c'. split; auto.
      * destruct (pop_correct x rest) as (c1 & -> & _ & H1). cbn [rbind snd].
        destruct (IH c1) as (c' & -> & H'). exists c'. split; auto.
Qed.

End HeapFacts.

(** ** Buffers and their points *)

Section BufferFacts.

Local Open Scope nat_scope.

Variable eleSize : nat.
Hypothesis eleSize_pos : 0 < eleSize.

Lemma getPointSet_eq (buf : list Z) (i : nat) :
  KdTree.getPointSet eleSize buf i = take eleSize (drop (i * eleSize) buf).
Proof.
  unfold KdTree.getPointSet, KdTree.subarray. f_equal. lia.
Qed.

Lemma getPointSet_app_l (a b : list Z) (i : nat) :
  i * eleSize + eleSize <= length a ->
  KdTree.getPointSet eleSize (a ++ b) i = KdTree.getPointSet eleSize a i.
Proof.
  intros H. rewrite !getPointSet_eq.
  rewrite drop_app_le by lia.
  apply take_app_le. rewrite length_drop. lia.
Qed.

Lemma getPointSet_app_r (a b : list Z) (k i : nat) :
  length a = k * eleSize ->
  KdTree.getPointSet eleSize (a ++ b) (k + i) = KdTree.getPointSet eleSize b i.
Proof.
  intros H. rewrite !getPointSet_eq.
  rewrite drop_app_ge by lia. do 2 f_equal. lia.
Qed.

Lemma pointsOf_length (buf : list Z) :
  length (pointsOf eleSize buf) = length buf / eleSize.
Proof. unfold pointsOf. now rewrite length_fmap, length_seq. Qed.

Lemma pointsOf_app (a b : list Z) (k : nat) :
  length a = k * eleSize ->
  pointsOf eleSize (a ++ b) = pointsOf eleSize a ++ pointsOf eleSize b.
Proof.
  intros H. unfold pointsOf.
  rewrite length_app, H, Nat.div_add_l, Nat.div_mul by lia.
  rewrite seq_app, fmap_app. f_equal.
  - apply list_fmap_ext. intros i x Hx. apply lookup_seq in Hx as [-> Hlt].
    apply getPointSet_app_l. nia.
  - cbn [Nat.add]. rewrite <- (Nat.add_0_r k) at 1.
    rewrite <- fmap_add_seq, <- list_fmap_compose.
    apply list_fmap_ext. intros i x _. cbn. now apply getPointSet_app_r.
Qed.

Lemma pointsOf_single (p : list Z) :
  length p = eleSize -> pointsOf eleSize p = [p].
Proof.
  intros H. unfold pointsOf. rewrite H, Nat.div_same by lia.
  cbn [seq fmap list_fmap]. rewrite getPointSet_eq.
  cbn [Nat.mul drop]. rewrite drop_0, take_ge by lia. reflexivity.
Qed.

Lemma pointsOf_nil : pointsOf eleSize [] = [].
Proof. unfold pointsOf. cbn. now rewrite Nat.Div0.div_0_l. Qed.

(** Every point of a buffer has [eleSize] coordinates. *)
Lemma pointsOf_point_length (buf p : list Z) :
  p ∈ pointsOf eleSize buf -> length p = eleSize.
Proof.
  unfold pointsOf. intros H.
  apply list_elem_of_fmap in H as (i & -> & Hi).
  apply list_elem_of_lookup in Hi as (j & Hj).
  apply lookup_seq in Hj as [-> Hlt].
  rewrite getPointSet_eq, length_take, length_drop.
  assert (length buf / eleSize * eleSize <= length buf)
    by (rewrite Nat.mul_comm; apply Nat.Div0.mul_div_le).
  nia.
Qed.

(** A window of [n] points splits around its [m]-th point. *)
Lemma window_split (buf : list Z) (n m : nat) :
  length buf = n * eleSize -> m < n ->
  let A := KdTree.subarray buf 0 (m * eleSize) in
  let M := KdTree.getPointSet eleSize buf m in
  let B := KdTree.subarray buf ((m + 1) * eleSize) (length buf) in
  buf = A ++ M ++ B /\
  length A = m * eleSize /\ length M = eleSize /\
  length B = (n - m - 1) * eleSize.
Proof.
  intros Hlen Hm A M B. subst A M B.
  rewrite getPointSet_eq. unfold KdTree.subarray.
  rewrite drop_0, Nat.sub_0_r.
  rewrite (take_ge (drop ((m + 1) * eleSize) buf))
    by (rewrite length_drop; lia).
  assert (m * eleSize + eleSize <= n * eleSize) by nia.
  repeat split.
  - replace ((m + 1) * eleSize) with (m * eleSize + eleSize) by lia.
    rewrite <- drop_drop, take_drop, take_drop. reflexivity.
  - rewrite length_take. lia.
  - rewrite length_take, length_drop. lia.
  - rewrite length_drop. nia.
Qed.

End BufferFacts.

(** ** The builder *)

Section BuildFacts.

Local Open Scope nat_scope.

Variable quickSortIP : list Z -> nat -> nat -> list Z.
Variable eleSize : nat.
Hypothesis eleSize_pos : 0 < eleSize.
Hypothesis sort_length : keepsLength eleSize quickSortIP.


Hypothesis sort_correct : sortsAlongAxis eleSize quickSortIP.

Lemma median_eq (n : nat) : n * eleSize / (2 * eleSize) = n / 2.
Proof. apply Nat.Div0.div_mul_cancel_r. lia. Qed.

(** The builder on a window of [n] whole points: the window is permuted,
    read in order it lists the points of the nodes from left to right,
    the nodes are numbered by their place in it, and the partition
    invariant holds. *)
Lemma buildTree_correct (fuel : nat) :
  forall (points : list Z) (depth : nat) (parent : option nat) (pos : nat)
         (st : KdTree.stats) (n : nat),
    length points = n * eleSize -> length points < fuel ->
    exists t win st',
      KdTree.buildTree quickSortIP eleSize fuel points depth parent pos st
      = Ok (t, win, st') /\
      length win = length points /\
      pointsOf eleSize win ≡ₚ pointsOf eleSize points /\
      objs t = pointsOf eleSize win /\
      posOf <$> inorder t = seq pos n /\
      ordered eleSize t /\
      depthsFrom depth t.
Proof.
  induction fuel as [|fuel IH];
    intros points depth parent pos st n Hn Hfuel; [lia|].
  cbn [KdTree.buildTree].
  destruct (length points =? 0) eqn:E0.
  { apply Nat.eqb_eq in E0. assert (n = 0) by nia. subst n.
    apply length_zero_iff_nil in E0. subst points.
    do 3 eexists. split; [reflexivity|].
    rewrite pointsOf_nil. cbn. auto 10. }
  destruct (length points =? eleSize) eqn:E1.
  { apply Nat.eqb_eq in E1. assert (n = 1) by nia. subst n.
    do 3 eexists. split; [reflexivity|].
    rewrite pointsOf_single by auto.
    rewrite getPointSet_eq by auto. cbn [Nat.mul]. rewrite drop_0.
    rewrite take_ge by lia. cbn.
    repeat split; auto; apply Forall_nil_2. }
  apply Nat.eqb_neq in E0. apply Nat.eqb_neq in E1.
  assert (Hn2 : 2 <= n) by (destruct n as [|[|n']]; cbn in Hn; lia).
  set (st1 := if KdTree.maxDepth st <? depth then _ else st).
  set (dim := depth mod eleSize).
  assert (Hdim : dim < eleSize) by (apply Nat.mod_upper_bound; lia).
  set (sorted := quickSortIP points eleSize dim).
  assert (Hs : length sorted = length points) by apply sort_length.
  assert (Hwf : length points mod eleSize = 0)
    by (rewrite Hn; apply Nat.Div0.mod_mul).
  destruct (sort_correct points dim Hwf Hdim) as [Hperm Hsorted].
  fold sorted in Hperm, Hsorted.
  rewrite Hn, median_eq. set (m := n / 2).
  assert (Hm : m < n) by (subst m; lia).
  rewrite <- Hn, <- Hs.
  destruct (window_split eleSize) with (buf := sorted) (n := n) (m := m)
    as (Hsplit & HA & HM & HB); [auto|lia|auto|].
  set (A := KdTree.subarray sorted 0 (m * eleSize)) in *.
  set (M := KdTree.getPointSet eleSize sorted m) in *.
  set (B := KdTree.subarray sorted ((m + 1) * eleSize) (length sorted)) in *.
  destruct (IH A (depth + 1) (Some (m + pos)) pos st1 m)
    as (tl & wl & sl & -> & Hwl & Hpl & Hol & Hposl & Hordl & Hdl);
    [auto|nia|].
  cbn [rbind].
  destruct (IH B (depth + 1) (Some (m + pos)) (pos + m + 1) sl (n - m - 1))
    as (tr & wr & sr & -> & Hwr & Hpr & Hor & Hposr & Hordr & Hdr);
    [auto|nia|].
  cbn [rbind].
  do 3 eexists. split; [reflexivity|].
  assert (HP : pointsOf eleSize sorted
               = pointsOf eleSize A ++ M :: pointsOf eleSize B).
  { rewrite Hsplit at 1.
    rewrite pointsOf_app with (k := m) by auto.
    rewrite pointsOf_app with (k := 1) by (auto; lia).
    rewrite pointsOf_single with (p := M) by auto. reflexivity. }
  assert (HW : pointsOf eleSize (wl ++ M ++ wr)
               = pointsOf eleSize wl ++ M :: pointsOf eleSize wr).
  { rewrite pointsOf_app with (k := m) by (auto; lia).
    rewrite pointsOf_app with (k := 1) by (auto; lia).
    rewrite pointsOf_single with (p := M) by auto. reflexivity. }
  assert (HlenA : length (pointsOf eleSize A) = m).
  { rewrite pointsOf_length, HA. apply Nat.div_mul. lia. }
  repeat split.
  - rewrite !length_app, Hwl, Hwr, Hs, <- Hs, Hsplit at 1.
    rewrite !length_app. lia.
  - rewrite HW, <- Hperm, HP, Hpl, Hpr. reflexivity.
  - unfold objs in *. cbn [inorder]. rewrite fmap_app, fmap_cons.
    cbn [objOf]. rewrite HW. congruence.
  - cbn [inorder]. rewrite fmap_app, fmap_cons. cbn [posOf].
    rewrite Hposl, Hposr.
    assert (Hseq : seq pos n
                   = seq pos m ++ (m + pos) :: seq (pos + m + 1) (n - m - 1)).
    { replace n with (m + S (n - m - 1)) at 1 by lia.
      rewrite seq_app. cbn [seq]. do 2 f_equal; [lia|f_equal; lia]. }
    now rewrite Hseq.
  - apply Forall_forall. intros p Hp. rewrite Hol, Hpl in Hp.
    apply list_elem_of_lookup in Hp as (i & Hi).
    pose proof (lookup_lt_Some _ _ _ Hi) as Hlt.
    apply (Hsorted i m p M); [lia| |].
    + rewrite HP, lookup_app_l by auto. exact Hi.
    + rewrite HP, list_lookup_middle by auto. reflexivity.
  - apply Forall_forall. intros p Hp. rewrite Hor, Hpr in Hp.
    apply list_elem_of_lookup in Hp as (i & Hi).
    apply (Hsorted m (m + S i) M p); [lia| |].
    + rewrite HP, list_lookup_middle by auto. reflexivity.
    + rewrite HP, lookup_app_r by lia. rewrite HlenA.
      replace (m + S i - m) with (S i) by lia. exact Hi.
  - exact Hordl.
  - exact Hordr.
  - exact Hdl.
  - exact Hdr.
Qed.

End BuildFacts.

(** ** The search *)

(** *** Steps that do not depend on the tree *)

(** The root of the heap of a query is its farthest entry. *)
Lemma heap_top_farthest (top : KdTree.entry) (rest : list KdTree.entry) :
  heapProperty KdTree.negDistance (top :: rest) ->
  forall y : KdTree.entry, y ∈ top :: rest -> snd y <= snd top.
Proof.
  intros H y Hy. apply list_elem_of_lookup in Hy as (i & Hi).
  apply heapProperty_parent in H.
  pose proof (parentProperty_root_min KdTree.negDistance _ top H eq_refl i y Hi)
    as Hmin.
  unfold KdTree.negDistance in Hmin. lia.
Qed.

Lemma isNull_true (t : KdTree.tree) : KdTree.isNull t = true -> t = KdTree.Null.
Proof. destruct t; [reflexivity|discriminate]. Qed.

Lemma isNull_false (t : KdTree.tree) :
  KdTree.isNull t = false -> t <> KdTree.Null.
Proof. destruct t; [discriminate|congruence]. Qed.

Lemma perm_glue {X : Type} (A B L R T : list X) (x : X) :
  A ++ B ≡ₚ L ++ R -> B ++ x :: A ++ T ≡ₚ (L ++ x :: R) ++ T.
Proof.
  intros H. rewrite <- !Permutation_middle. cbn. apply perm_skip.
  rewrite !app_assoc. apply Permutation_app_tail.
  rewrite <- H. apply Permutation_app_comm.
Qed.

(** *** The extraction loop and the seeding loop *)

Lemma collect_short (count : nat) :
  forall (i : nat) (bn result : list KdTree.entry),
    (i <= length bn < i + count)%nat ->
    KdTree.collect count i bn result = Err TypeError.
Proof.
  induction count as [|count IH]; intros i bn result H; [lia|].
  cbn [KdTree.collect]. destruct (bn !! i) as [[n d]|] eqn:E; [|reflexivity].
  apply lookup_lt_Some in E. apply IH. lia.
Qed.

Lemma collect_inside (count : nat) :
  forall (i : nat) (bn result : list KdTree.entry),
    (i + count <= length bn)%nat ->
    exists r,
      KdTree.collect count i bn result = Ok (result ++ r) /\
      (forall x, x ∈ r -> x ∈ bn /\ KdTree.isNull (fst x) = false) /\
      (Forall (fun x => KdTree.isNull (fst x) = false) bn ->
       r = take count (drop i bn)).
Proof.
  induction count as [|count IH]; intros i bn result H.
  - exists []. cbn. rewrite app_nil_r.
    split; [reflexivity|]. split; [|auto].
    intros x Hx. inversion Hx.
  - cbn [KdTree.collect].
    destruct (bn !! i) as [[n d]|] eqn:E;
      [|apply lookup_ge_None in E; lia].
    destruct (IH (S i) bn
                 (if KdTree.isNull n then result else result ++ [(n, d)]))
      as (r & -> & Hin & Hall); [lia|].
    rewrite (drop_S _ _ _ E). cbn [take].
    destruct (KdTree.isNull n) eqn:Hn.
    + exists r. repeat split; auto; try (apply Hin; auto).
      intros Hnn. rewrite Forall_lookup in Hnn.
      specialize (Hnn i _ E). cbn in Hnn. congruence.
    + exists ((n, d) :: r). rewrite <- app_assoc. cbn.
      split; [reflexivity|]. split.
      * intros x Hx. apply elem_of_cons in Hx as [->|Hx]; [|now apply Hin].
        split; [|exact Hn]. apply list_elem_of_lookup. eauto.
      * intros Hnn. now rewrite Hall.
Qed.

Lemma preseed_correct (d : Z) (count : nat) :
  forall bn : list KdTree.entry,
    exists bn', KdTree.preseed count d bn = Ok bn' /\
                bn' ≡ₚ replicate count (KdTree.Null, d) ++ bn.
Proof.
  induction count as [|count IH]; intros bn.
  - exists bn. auto.
  - cbn [KdTree.preseed].
    destruct (push_correct KdTree.negDistance bn (KdTree.Null, d))
      as (c1 & -> & Hperm & _).
    cbn [rbind]. destruct (IH c1) as (bn' & -> & Hperm').
    exists bn'. split; [reflexivity|].
    rewrite Hperm', Hperm. cbn. now rewrite <- Permutation_middle.
Qed.

Section Admission.

Variable maxNodes : Z.

Local Abbreviation k := (Z.to_nat maxNodes).

Lemma hasRoomOrBeats_room (d : Z) (bn : list KdTree.entry) :
  (length bn < k)%nat -> KdTree.hasRoomOrBeats maxNodes d bn = Ok true.
Proof.
  intros H. unfold KdTree.hasRoomOrBeats, BinaryHeap.size.
  destruct (Z.of_nat (length bn) <? maxNodes) eqn:E; [reflexivity|].
  apply Z.ltb_ge in E. lia.
Qed.

Lemma hasRoomOrBeats_full (d : Z) (top : KdTree.entry)
      (rest : list KdTree.entry) :
  (k <= length (top :: rest))%nat ->
  KdTree.hasRoomOrBeats maxNodes d (top :: rest) = Ok (d <? snd top).
Proof.
  intros H. unfold KdTree.hasRoomOrBeats, BinaryHeap.size.
  destruct (Z.of_nat (length (top :: rest)) <? maxNodes) eqn:E;
    [|reflexivity].
  apply Z.ltb_lt in E. lia.
Qed.

(** [saveNode] with room left keeps the new entry. *)
Lemma saveNode_room (node : KdTree.tree) (d : Z) (bn : list KdTree.entry) :
  (length bn < k)%nat ->
  exists bn', KdTree.saveNode maxNodes node d bn = Ok bn' /\
              bn' ≡ₚ (node, d) :: bn /\
              (heapProperty KdTree.negDistance bn ->
               heapProperty KdTree.negDistance bn').
Proof.
  intros Hroom. unfold KdTree.saveNode.
  destruct (push_correct KdTree.negDistance bn (node, d))
    as (c1 & -> & Hperm & Hheap).
  cbn [rbind]. unfold BinaryHeap.size.
  apply Permutation_length in Hperm as Hlen. cbn in Hlen.
  destruct (maxNodes <? Z.of_nat (length c1)) eqn:E.
  - apply Z.ltb_lt in E. lia.
  - exists c1. auto.
Qed.

(** [saveNode] on a full heap evicts a farthest entry. *)
Lemma saveNode_full (node : KdTree.tree) (d : Z) (bn : list KdTree.entry) :
  0 <= maxNodes -> length bn = k ->
  exists bn' top,
    KdTree.saveNode maxNodes node d bn = Ok bn' /\
    top :: bn' ≡ₚ (node, d) :: bn /\
    (heapProperty KdTree.negDistance bn ->
     heapProperty KdTree.negDistance bn' /\
     forall y : KdTree.entry, y ∈ (node, d) :: bn -> snd y <= snd top).
Proof.
  intros Hk Hfull. unfold KdTree.saveNode.
  destruct (push_correct KdTree.negDistance bn (node, d))
    as (c1 & -> & Hperm & Hheap).
  cbn [rbind]. unfold BinaryHeap.size.
  apply Permutation_length in Hperm as Hlen. cbn in Hlen.
  destruct (maxNodes <? Z.of_nat (length c1)) eqn:E;
    [|apply Z.ltb_ge in E; lia].
  destruct c1 as [|top rest]; [discriminate|].
  destruct (pop_correct KdTree.negDistance top rest)
    as (c2 & -> & Hperm2 & Hheap2).
  cbn [rbind snd]. exists c2, top. split; [reflexivity|]. split.
  - rewrite Hperm2. exact Hperm.
  - intros H. specialize (Hheap H). split; [auto|].
    intros y Hy. apply (heap_top_farthest top rest Hheap).
    now rewrite Hperm.
Qed.

Lemma bestInv_nil : bestInv k [] [].
Proof.
  repeat split; auto.
  - intros n m x y Hx. discriminate.
  - cbn. lia.
  - intros x y Hx. inversion Hx.
Qed.

(** The admission rule of lines 114-116 and 135-137 keeps the invariant:
    the candidate is kept when there is room, replaces the farthest entry
    when it is nearer, and is turned down otherwise. *)
Lemma consider_correct (node : KdTree.tree) (d : Z) (s : KdTree.state)
      (D : list KdTree.entry) :
  1 <= maxNodes ->
  bestInv k (KdTree.bestNodes s) D ->
  exists bn' D',
    KdTree.consider maxNodes node d s
    = KdTree.Done (KdTree.mkState bn' (KdTree.visited s)) /\
    bestInv k bn' D' /\
    bn' ++ D' ≡ₚ (node, d) :: KdTree.bestNodes s ++ D.
Proof.
  intros Hk. destruct s as [bn vis]. cbn [KdTree.bestNodes KdTree.visited].
  intros (Hheap & Hle & Hroom & Hfar). unfold KdTree.consider.
  cbn [KdTree.bestNodes KdTree.visited].
  destruct (decide (length bn < k)%nat) as [Hlt|Hge].
  - rewrite hasRoomOrBeats_room by auto.
    destruct (saveNode_room node d bn Hlt) as (bn' & -> & Hperm & Hh).
    rewrite (Hroom Hlt). exists bn', []. split; [reflexivity|].
    apply Permutation_length in Hperm as Hlen. cbn in Hlen.
    split.
    + split; [auto|]. split; [lia|]. split; [auto|].
      intros x y Hx. inversion Hx.
    + now rewrite !app_nil_r.
  - destruct bn as [|top rest]; [cbn in Hge; lia|].
    rewrite hasRoomOrBeats_full by lia.
    pose proof (heap_top_farthest top rest Hheap) as Htop.
    destruct (d <? snd top) eqn:E.
    + apply Z.ltb_lt in E.
      destruct (saveNode_full node d (top :: rest)) as (bn' & top' & -> & Hperm & Hh);
        [lia|lia|].
      destruct (Hh Hheap) as [Hheap' Hmax].
      apply Permutation_length in Hperm as Hlen. cbn in Hlen.
      exists bn', (top' :: D). split; [reflexivity|]. split.
      * cbn [length] in Hle, Hge.
        split; [auto|]. split; [lia|]. split; [intros; lia|].
        intros x y Hx Hy.
        assert (Hy' : y ∈ (node, d) :: top :: rest).
        { rewrite <- Hperm. now apply list_elem_of_further. }
        apply elem_of_cons in Hx as [->|Hx]; [now apply Hmax|].
        apply elem_of_cons in Hy' as [->|Hy'].
        -- cbn [snd]. assert (snd top <= snd x)
             by (apply Hfar; auto; apply list_elem_of_here). lia.
        -- now apply Hfar.
      * rewrite <- Permutation_middle, app_comm_cons, Hperm. reflexivity.
    + apply Z.ltb_ge in E.
      exists (top :: rest), ((node, d) :: D). split; [reflexivity|]. split.
      * split; [auto|]. split; [auto|]. split; [intros; lia|].
        intros x y Hx Hy.
        apply elem_of_cons in Hx as [->|Hx]; [|now apply Hfar].
        cbn [snd]. specialize (Htop y Hy). lia.
      * now rewrite <- Permutation_middle.
Qed.

Lemma consider_room (node : KdTree.tree) (d : Z) (s : KdTree.state) :
  (length (KdTree.bestNodes s) < k)%nat ->
  exists bn',
    KdTree.consider maxNodes node d s
    = KdTree.Done (KdTree.mkState bn' (KdTree.visited s)) /\
    bn' ≡ₚ (node, d) :: KdTree.bestNodes s.
Proof.
  intros Hlt. unfold KdTree.consider.
  rewrite hasRoomOrBeats_room by auto.
  destruct (saveNode_room node d _ Hlt) as (bn' & -> & Hperm & _).
  eauto.
Qed.

Lemma consider_radius (dmax : Z) (node : KdTree.tree) (d : Z)
      (s : KdTree.state) :
  1 <= maxNodes ->
  length (KdTree.bestNodes s) = k ->
  Forall (fun x => snd x <= dmax) (KdTree.bestNodes s) ->
  exists bn',
    KdTree.consider maxNodes node d s
    = KdTree.Done (KdTree.mkState bn' (KdTree.visited s)) /\
    length bn' = k /\ Forall (fun x => snd x <= dmax) bn'.
Proof.
  destruct s as [bn vis]. cbn [KdTree.bestNodes KdTree.visited].
  intros Hk Hlen Hall. unfold KdTree.consider.
  cbn [KdTree.bestNodes KdTree.visited].
  destruct bn as [|top rest]; [cbn in Hlen; lia|].
  rewrite hasRoomOrBeats_full by lia.
  destruct (d <? snd top) eqn:E.
  - apply Z.ltb_lt in E.
    destruct (saveNode_full node d (top :: rest)) as (bn' & top' & -> & Hperm & _);
      [lia|auto|].
    exists bn'. split; [reflexivity|].
    apply Permutation_length in Hperm as Hlen'. cbn [length] in Hlen', Hlen.
    split; [lia|].
    assert (Hall' : Forall (fun x => snd x <= dmax) (top' :: bn')).
    { rewrite Hperm. constructor; [|exact Hall].
      apply Forall_cons in Hall as [Htop _]. cbn [snd]. lia. }
    now apply Forall_cons in Hall' as [_ Hall'].
  - exists (top :: rest). auto.
Qed.

(** The admission rule and the size of the heap: it grows by one while
    there is room and then stays at [k]; entries other than placeholders
    stay so. *)
Lemma consider_size (node : KdTree.tree) (d : Z) (s : KdTree.state) :
  1 <= maxNodes ->
  (length (KdTree.bestNodes s) <= k)%nat ->
  exists bn',
    KdTree.consider maxNodes node d s
    = KdTree.Done (KdTree.mkState bn' (KdTree.visited s)) /\
    length bn' = (k `min` S (length (KdTree.bestNodes s)))%nat /\
    (KdTree.isNull node = false ->
     Forall (fun x => KdTree.isNull (fst x) = false) (KdTree.bestNodes s) ->
     Forall (fun x => KdTree.isNull (fst x) = false) bn').
Proof.
  destruct s as [bn vis]. cbn [KdTree.bestNodes KdTree.visited].
  intros Hk Hle.
  destruct (decide (length bn < k)%nat) as [Hlt|Hge].
  - destruct (consider_room node d (KdTree.mkState bn vis) Hlt)
      as (bn' & -> & Hperm).
    cbn [KdTree.bestNodes KdTree.visited] in *.
    exists bn'. split; [reflexivity|].
    apply Permutation_length in Hperm as Hlen. cbn [length] in Hlen.
    split; [lia|]. intros Hn Hall. rewrite Hperm. now constructor.
  - unfold KdTree.consider. cbn [KdTree.bestNodes KdTree.visited].
    destruct bn as [|top rest]; [cbn in Hge; lia|].
    rewrite hasRoomOrBeats_full by lia.
    destruct (d <? snd top).
    + destruct (saveNode_full node d (top :: rest))
        as (bn' & top' & -> & Hperm & _); [lia|lia|].
      exists bn'. split; [reflexivity|].
      apply Permutation_length in Hperm as Hlen. cbn [length] in Hlen, Hle, Hge.
      split; [cbn [length]; lia|]. intros Hn Hall.
      assert (Hall' : Forall (fun x => KdTree.isNull (fst x) = false)
                             (top' :: bn'))
        by (rewrite Hperm; now constructor).
      now apply Forall_cons in Hall' as [_ Hall'].
    + exists (top :: rest). split; [reflexivity|].
      split; [cbn [length] in *; lia|auto].
Qed.

End Admission.

Section SearchFacts.

Variable metric : list Z -> list Z -> Z.
Variable eleSize : nat.
Variable point : list Z.
Variable maxNodes : Z.

Local Abbreviation k := (Z.to_nat maxNodes).

Lemma entriesOf_node (o : list Z) (l r : KdTree.tree) (par : option nat)
      (d p : nat) :
  entriesOf metric point (KdTree.Node o l r par d p)
  = entriesOf metric point l
    ++ (KdTree.Node o l r par d p, metric point o) :: entriesOf metric point r.
Proof. unfold entriesOf. cbn [inorder]. now rewrite fmap_app. Qed.

Lemma entriesOf_elem (t : KdTree.tree) (x : KdTree.entry) :
  x ∈ entriesOf metric point t ->
  objOf (fst x) ∈ objs t /\ snd x = metric point (objOf (fst x)) /\
  KdTree.isNull (fst x) = false.
Proof.
  unfold entriesOf, objs. intros H.
  apply list_elem_of_fmap in H as (n & -> & Hn). cbn.
  split; [apply list_elem_of_fmap; eauto|]. split; [reflexivity|].
  clear -Hn. induction t as [|o l IHl r IHr par d p]; [inversion Hn|].
  cbn [inorder] in Hn. apply elem_of_app in Hn as [Hn|Hn]; [auto|].
  apply elem_of_cons in Hn as [->|Hn]; auto.
Qed.

Lemma entriesOf_null : entriesOf metric point KdTree.Null = [].
Proof. reflexivity. Qed.

Section Pruning.

Hypothesis maxNodes_pos : 1 <= maxNodes.
Hypothesis point_length : length point = eleSize.
Hypothesis metric_nonneg : nonNegative metric.
Hypothesis metric_axis : perAxisMonotonic metric eleSize.

(** Pruning is sound: every candidate beyond the splitting hyperplane is
    at least as far as the hyperplane. *)
Lemma far_side_bound (o : list Z) (depth : nat) (other : KdTree.tree) :
  length o = eleSize ->
  Forall (fun p => length p = eleSize) (objs other) ->
  Forall (fun p =>
            let a := (depth mod eleSize)%nat in
            KdTree.coord point a <= KdTree.coord o a <= KdTree.coord p a \/
            KdTree.coord p a <= KdTree.coord o a <= KdTree.coord point a)
         (objs other) ->
  forall x : KdTree.entry,
    x ∈ entriesOf metric point other ->
    Z.abs (metric (KdTree.linearPoint eleSize point o depth) o) <= snd x.
Proof.
  intros Ho Hlen Hside x Hx.
  apply entriesOf_elem in Hx as (Hobj & -> & _).
  rewrite Z.abs_eq by apply metric_nonneg.
  rewrite Forall_forall in Hlen, Hside.
  apply metric_axis; auto.
Qed.

Lemma nearestSearch_correct (t : KdTree.tree) :
  t <> KdTree.Null -> validTree eleSize t ->
  searchSpec metric eleSize point maxNodes t.
Proof.
  induction t as [|o l IHl r IHr par d p]; [congruence|].
  intros _ [Hord Hlen]. cbn [ordered] in Hord.
  destruct Hord as (Hl & Hr & Hordl & Hordr).
  unfold objs in Hlen. cbn [inorder] in Hlen.
  rewrite fmap_app, fmap_cons in Hlen. cbn [objOf] in Hlen.
  apply Forall_app in Hlen as [Hlenl Hlen].
  apply Forall_cons in Hlen as [Hleno Hlenr].
  fold (objs l) in Hlenl. fold (objs r) in Hlenr.
  intros s D HInv. rewrite entriesOf_node. cbn [KdTree.nearestSearch].
  set (node := KdTree.Node o l r par d p).
  set (s0 := KdTree.mkState (KdTree.bestNodes s) (p :: KdTree.visited s)).
  set (lin := Z.abs (metric (KdTree.linearPoint eleSize point o d) o)).
  set (a := (d mod eleSize)%nat) in *.
  destruct (KdTree.isNull r && KdTree.isNull l) eqn:Hleaf.
  { apply andb_true_iff in Hleaf as [Hr0 Hl0].
    apply isNull_true in Hr0, Hl0. subst l r.
    destruct (consider_correct maxNodes node (metric point o) s0 D maxNodes_pos HInv)
      as (bn' & D' & -> & HInv' & Hperm).
    eexists _, D'. split; [reflexivity|]. split; [exact HInv'|].
    rewrite Hperm. reflexivity. }
  set (bestIsLeft := if KdTree.isNull r then true
                     else if KdTree.isNull l then false
                          else KdTree.coord point a <? KdTree.coord o a).
  assert (Hcases : exists best other,
             (if bestIsLeft then l else r) = best /\
             (if bestIsLeft then r else l) = other /\
             searchSpec metric eleSize point maxNodes best /\
             (other = KdTree.Null \/
              searchSpec metric eleSize point maxNodes other) /\
             (forall x : KdTree.entry,
                 x ∈ entriesOf metric point other -> lin <= snd x) /\
             entriesOf metric point best ++ entriesOf metric point other
             ≡ₚ entriesOf metric point l ++ entriesOf metric point r).
  { subst bestIsLeft.
    destruct (KdTree.isNull r) eqn:Hr0.
    - destruct (KdTree.isNull l) eqn:Hl0; [discriminate|].
      apply isNull_true in Hr0. apply isNull_false in Hl0. subst r.
      exists l, KdTree.Null. repeat split; auto.
      + apply IHl; [auto|split; auto].
      + intros x Hx. inversion Hx.
    - apply isNull_false in Hr0.
      destruct (KdTree.isNull l) eqn:Hl0.
      + apply isNull_true in Hl0. subst l.
        exists r, KdTree.Null. repeat split; auto.
        * apply IHr; [auto|split; auto].
        * intros x Hx. inversion Hx.
        * apply Permutation_app_comm.
      + apply isNull_false in Hl0.
        destruct (KdTree.coord point a <? KdTree.coord o a) eqn:E.
        * apply Z.ltb_lt in E. exists l, r. repeat split; auto.
          -- apply IHl; [auto|split; auto].
          -- right. apply IHr; [auto|split; auto].
          -- apply far_side_bound; auto.
             eapply Forall_impl; [exact Hr|]. cbn. intros q Hq. fold a. lia.
        * apply Z.ltb_ge in E. exists r, l. repeat split; auto.
          -- apply IHr; [auto|split; auto].
          -- right. apply IHl; [auto|split; auto].
          -- apply far_side_bound; auto.
             eapply Forall_impl; [exact Hl|]. cbn. intros q Hq. fold a. lia.
          -- apply Permutation_app_comm. }
  destruct Hcases as (best & other & -> & -> & Hbest & Hother & Hfar & Hperm).
  destruct (Hbest s0 D HInv) as (s1 & D1 & -> & HInv1 & Hp1).
  destruct (consider_correct maxNodes node (metric point o) s1 D1 maxNodes_pos HInv1)
    as (bn2 & D2 & -> & HInv2 & Hp2).
  cbn [KdTree.bestNodes].
  set (s2 := KdTree.mkState bn2 (KdTree.visited s1)).
  cbn [KdTree.bestNodes] in Hp1.
  assert (Hexplore : exists s' D',
             (if KdTree.isNull other then KdTree.Done s2
              else KdTree.nearestSearch metric eleSize point maxNodes other s2)
             = KdTree.Done s' /\
             bestInv k (KdTree.bestNodes s') D' /\
             KdTree.bestNodes s' ++ D'
             ≡ₚ (entriesOf metric point l ++ (node, metric point o)
                   :: entriesOf metric point r) ++ KdTree.bestNodes s ++ D).
  { destruct Hother as [->|Hother].
    - cbn [KdTree.isNull]. exists s2, D2. split; [reflexivity|].
      split; [exact HInv2|]. cbn [KdTree.bestNodes s2].
      rewrite Hp2, Hp1. apply (perm_glue _ [] _ _ _ _ Hperm).
    - destruct (KdTree.isNull other) eqn:Hnull.
      + apply isNull_true in Hnull. subst other.
        exists s2, D2. split; [reflexivity|].
        split; [exact HInv2|]. cbn [KdTree.bestNodes s2].
        rewrite Hp2, Hp1. apply (perm_glue _ [] _ _ _ _ Hperm).
      + destruct (Hother s2 D2 HInv2) as (s3 & D3 & -> & HInv3 & Hp3).
        exists s3, D3. split; [reflexivity|]. split; [exact HInv3|].
        rewrite Hp3. cbn [KdTree.bestNodes s2]. rewrite Hp2, Hp1.
        now apply perm_glue. }
  destruct (decide (length bn2 < k)%nat) as [Hlt|Hge].
  { rewrite hasRoomOrBeats_room by auto. exact Hexplore. }
  destruct bn2 as [|top rest] eqn:Hbn2; [cbn in Hge; lia|].
  rewrite hasRoomOrBeats_full by lia.
  destruct (lin <? snd top) eqn:E; [exact Hexplore|].
  apply Z.ltb_ge in E.
  exists s2, (entriesOf metric point other ++ D2).
  split; [reflexivity|]. cbn [KdTree.bestNodes s2].
  destruct HInv2 as (Hh2 & Hle2 & Hroom2 & Hfar2).
  pose proof (heap_top_farthest top rest Hh2) as Htop.
  split.
  - split; [auto|]. split; [auto|]. split; [intros; lia|].
    intros x y Hx Hy. apply elem_of_app in Hx as [Hx|Hx].
    + specialize (Hfar x Hx). specialize (Htop y Hy). lia.
    + now apply Hfar2.
  - rewrite (Permutation_app_comm (entriesOf metric point other) D2).
    rewrite app_assoc, Hp2, Hp1.
    rewrite <- (app_nil_r (entriesOf metric point other)) at 1.
    rewrite (Permutation_app_comm _ (entriesOf metric point other ++ [])).
    cbn. rewrite <- app_assoc. cbn.
    now apply perm_glue.
Qed.

End Pruning.

(** *** While there is room *)

(** As long as the heap cannot fill up, the search visits every node and
    keeps every candidate, whatever the metric and the tree. *)
Lemma nearestSearch_room (t : KdTree.tree) :
  t <> KdTree.Null ->
  forall s : KdTree.state,
    (length (KdTree.bestNodes s) + length (inorder t) <= k)%nat ->
    exists s',
      KdTree.nearestSearch metric eleSize point maxNodes t s = KdTree.Done s' /\
      KdTree.bestNodes s' ≡ₚ entriesOf metric point t ++ KdTree.bestNodes s.
Proof.
  induction t as [|o l IHl r IHr par d p]; [congruence|].
  intros _ s Hroom. rewrite entriesOf_node. cbn [KdTree.nearestSearch].
  cbn [inorder] in Hroom. rewrite length_app in Hroom. cbn [length] in Hroom.
  set (node := KdTree.Node o l r par d p) in *.
  set (s0 := KdTree.mkState (KdTree.bestNodes s) (p :: KdTree.visited s)).
  set (lin := Z.abs (metric (KdTree.linearPoint eleSize point o d) o)).
  destruct (KdTree.isNull r && KdTree.isNull l) eqn:Hleaf.
  { apply andb_true_iff in Hleaf as [Hr0 Hl0].
    apply isNull_true in Hr0, Hl0. subst l r.
    destruct (consider_room maxNodes node (metric point o) s0) as (bn' & -> & Hperm);
      [cbn; lia|].
    eexists. split; [reflexivity|]. cbn. exact Hperm. }
  set (bestIsLeft := if KdTree.isNull r then true
                     else if KdTree.isNull l then false
                          else KdTree.coord point (d mod eleSize)
                               <? KdTree.coord o (d mod eleSize)).
  assert (Hcases : exists best other,
             (if bestIsLeft then l else r) = best /\
             (if bestIsLeft then r else l) = other /\
             best <> KdTree.Null /\
             (forall s : KdTree.state,
                 (length (KdTree.bestNodes s) + length (inorder best) <= k)%nat ->
                 exists s',
                   KdTree.nearestSearch metric eleSize point maxNodes best s
                   = KdTree.Done s' /\
                   KdTree.bestNodes s'
                   ≡ₚ entriesOf metric point best ++ KdTree.bestNodes s) /\
             (other = KdTree.Null \/
              forall s : KdTree.state,
                (length (KdTree.bestNodes s) + length (inorder other) <= k)%nat ->
                exists s',
                  KdTree.nearestSearch metric eleSize point maxNodes other s
                  = KdTree.Done s' /\
                  KdTree.bestNodes s'
                  ≡ₚ entriesOf metric point other ++ KdTree.bestNodes s) /\
             (length (inorder best) + length (inorder other)
              = length (inorder l) + length (inorder r))%nat /\
             entriesOf metric point best ++ entriesOf metric point other
             ≡ₚ entriesOf metric point l ++ entriesOf metric point r).
  { subst bestIsLeft.
    destruct (KdTree.isNull r) eqn:Hr0.
    - destruct (KdTree.isNull l) eqn:Hl0; [discriminate|].
      apply isNull_true in Hr0. apply isNull_false in Hl0. subst r.
      exists l, KdTree.Null. repeat split; auto.
    - apply isNull_false in Hr0.
      destruct (KdTree.isNull l) eqn:Hl0.
      + apply isNull_true in Hl0. subst l.
        exists r, KdTree.Null.
        repeat split; auto; try (cbn; lia); apply Permutation_app_comm.
      + apply isNull_false in Hl0.
        destruct (_ <? _).
        * exists l, r. repeat split; auto.
        * exists r, l.
          repeat split; auto; try lia; apply Permutation_app_comm. }
  destruct Hcases
    as (best & other & -> & -> & Hnn & Hbest & Hother & Hsize & Hperm).
  destruct (Hbest s0) as (s1 & -> & Hp1); [cbn; lia|].
  apply Permutation_length in Hp1 as Hlen1.
  rewrite length_app in Hlen1. unfold entriesOf in Hlen1.
  rewrite length_fmap in Hlen1. cbn [KdTree.bestNodes s0] in Hlen1, Hp1.
  destruct (consider_room maxNodes node (metric point o) s1) as (bn2 & -> & Hp2);
    [lia|].
  apply Permutation_length in Hp2 as Hlen2. cbn [length] in Hlen2.
  cbn [KdTree.bestNodes].
  set (s2 := KdTree.mkState bn2 (KdTree.visited s1)).
  assert (Hexplore : exists s',
             (if KdTree.isNull other then KdTree.Done s2
              else KdTree.nearestSearch metric eleSize point maxNodes other s2)
             = KdTree.Done s' /\
             KdTree.bestNodes s'
             ≡ₚ (entriesOf metric point l ++ (node, metric point o)
                   :: entriesOf metric point r) ++ KdTree.bestNodes s).
  { assert (Hstay : bn2 ≡ₚ (entriesOf metric point l ++ (node, metric point o)
                              :: entriesOf metric point r) ++ KdTree.bestNodes s
                    -> exists s',
               KdTree.Done s2 = KdTree.Done s' /\
               KdTree.bestNodes s'
               ≡ₚ (entriesOf metric point l ++ (node, metric point o)
                     :: entriesOf metric point r) ++ KdTree.bestNodes s)
      by (intros Hq; exists s2; split; [reflexivity|exact Hq]).
    destruct Hother as [->|Hother].
    - cbn [KdTree.isNull]. apply Hstay. rewrite Hp2, Hp1.
      rewrite <- (app_nil_r (KdTree.bestNodes s)).
      apply (perm_glue _ [] _ _ _ _ Hperm).
    - destruct (KdTree.isNull other) eqn:Hnull.
      + apply isNull_true in Hnull. subst other. apply Hstay.
        rewrite Hp2, Hp1. rewrite <- (app_nil_r (KdTree.bestNodes s)).
        apply (perm_glue _ [] _ _ _ _ Hperm).
      + destruct (Hother s2) as (s3 & -> & Hp3); [cbn [KdTree.bestNodes s2]; lia|].
        exists s3. split; [reflexivity|].
        rewrite Hp3. cbn [KdTree.bestNodes s2]. rewrite Hp2, Hp1.
        rewrite <- (app_nil_r (KdTree.bestNodes s)).
        now apply perm_glue. }
  destruct (decide (length bn2 < k)%nat) as [Hlt|Hge].
  { rewrite hasRoomOrBeats_room by auto. exact Hexplore. }
  destruct bn2 as [|top rest] eqn:Hbn2; [cbn in Hlen2; lia|].
  rewrite hasRoomOrBeats_full by lia.
  destruct (lin <? snd top); [exact Hexplore|].
  assert (Hnone : length (inorder other) = 0%nat) by (cbn [length] in *; lia).
  assert (Hnull : other = KdTree.Null).
  { destruct other; [reflexivity|]. cbn [inorder] in Hnone.
    rewrite length_app in Hnone. cbn in Hnone. lia. }
  subst other. cbn [KdTree.isNull] in Hexplore. exact Hexplore.
Qed.

(** *** With a capacity below one *)

(** With [maxNodes < 1] nothing is ever admitted: the search goes down to
    a first leaf and fails there, reading the top of the empty heap. *)
Lemma nearestSearch_no_capacity (t : KdTree.tree) :
  maxNodes < 1 -> t <> KdTree.Null ->
  forall s : KdTree.state,
    KdTree.bestNodes s = [] ->
    exists (s' : KdTree.state) (path : list nat),
      KdTree.nearestSearch metric eleSize point maxNodes t s
      = KdTree.Throw TypeError s' /\
      KdTree.bestNodes s' = [] /\
      KdTree.visited s' = path ++ posOf t :: KdTree.visited s.
Proof.
  intros Hk. induction t as [|o l IHl r IHr par d p]; [congruence|].
  intros _ s Hs. cbn [KdTree.nearestSearch posOf].
  set (s0 := KdTree.mkState (KdTree.bestNodes s) (p :: KdTree.visited s)).
  destruct (KdTree.isNull r && KdTree.isNull l) eqn:Hleaf.
  - unfold KdTree.consider, KdTree.hasRoomOrBeats. cbn [KdTree.bestNodes s0].
    rewrite Hs. cbn [BinaryHeap.size length BinaryHeap.peek lookup list_lookup].
    destruct (Z.of_nat 0 <? maxNodes) eqn:E; [apply Z.ltb_lt in E; lia|].
    exists s0, []. cbn. auto.
  - assert (Hbest : exists best,
               (if (if KdTree.isNull r then true
                    else if KdTree.isNull l then false
                         else KdTree.coord point (d mod eleSize)
                              <? KdTree.coord o (d mod eleSize))
                then l else r) = best /\
               best <> KdTree.Null /\ (best = l \/ best = r)).
    { destruct (KdTree.isNull r) eqn:Hr0.
      - destruct (KdTree.isNull l) eqn:Hl0; [discriminate|].
        apply isNull_false in Hl0. eauto.
      - apply isNull_false in Hr0.
        destruct (KdTree.isNull l) eqn:Hl0; [eauto|].
        apply isNull_false in Hl0. destruct (_ <? _); eauto. }
    destruct Hbest as (best & -> & Hnn & Hwhich).
    assert (IH : exists (s' : KdTree.state) (path : list nat),
               KdTree.nearestSearch metric eleSize point maxNodes best s0
               = KdTree.Throw TypeError s' /\
               KdTree.bestNodes s' = [] /\
               KdTree.visited s' = path ++ posOf best :: KdTree.visited s0)
      by (destruct Hwhich as [->| ->]; [apply IHl|apply IHr]; auto).
    destruct IH as (s' & path & -> & Hbn & Hvis).
    exists s', (path ++ [posOf best]). repeat split; auto.
    rewrite Hvis. cbn [KdTree.visited s0]. now rewrite <- app_assoc.
Qed.

(** *** With a radius *)

(** Once the heap holds [k] entries within the radius, it keeps holding
    [k] entries within the radius. *)
Lemma nearestSearch_radius (dmax : Z) (t : KdTree.tree) :
  1 <= maxNodes -> t <> KdTree.Null ->
  forall s : KdTree.state,
    length (KdTree.bestNodes s) = k ->
    Forall (fun x => snd x <= dmax) (KdTree.bestNodes s) ->
    exists s',
      KdTree.nearestSearch metric eleSize point maxNodes t s = KdTree.Done s' /\
      length (KdTree.bestNodes s') = k /\
      Forall (fun x => snd x <= dmax) (KdTree.bestNodes s').
Proof.
  intros Hk. induction t as [|o l IHl r IHr par d p]; [congruence|].
  intros _ s Hlen Hall. cbn [KdTree.nearestSearch].
  set (node := KdTree.Node o l r par d p).
  set (s0 := KdTree.mkState (KdTree.bestNodes s) (p :: KdTree.visited s)).
  set (lin := Z.abs (metric (KdTree.linearPoint eleSize point o d) o)).
  destruct (KdTree.isNull r && KdTree.isNull l) eqn:Hleaf.
  { destruct (consider_radius maxNodes dmax node (metric point o) s0 Hk Hlen Hall)
      as (bn' & -> & Hlen' & Hall'). eauto. }
  set (bestIsLeft := if KdTree.isNull r then true
                     else if KdTree.isNull l then false
                          else KdTree.coord point (d mod eleSize)
                               <? KdTree.coord o (d mod eleSize)).
  assert (Hl : KdTree.isNull l = false ->
               forall s : KdTree.state,
                 length (KdTree.bestNodes s) = k ->
                 Forall (fun x => snd x <= dmax) (KdTree.bestNodes s) ->
                 exists s',
                   KdTree.nearestSearch metric eleSize point maxNodes l s
                   = KdTree.Done s' /\
                   length (KdTree.bestNodes s') = k /\
                   Forall (fun x => snd x <= dmax) (KdTree.bestNodes s'))
    by (intros Hnl; apply IHl; now apply isNull_false).
  assert (Hr : KdTree.isNull r = false ->
               forall s : KdTree.state,
                 length (KdTree.bestNodes s) = k ->
                 Forall (fun x => snd x <= dmax) (KdTree.bestNodes s) ->
                 exists s',
                   KdTree.nearestSearch metric eleSize point maxNodes r s
                   = KdTree.Done s' /\
                   length (KdTree.bestNodes s') = k /\
                   Forall (fun x => snd x <= dmax) (KdTree.bestNodes s'))
    by (intros Hnr; apply IHr; now apply isNull_false).
  clear IHl IHr.
  assert (Hbest : KdTree.isNull (if bestIsLeft then l else r) = false).
  { subst bestIsLeft. destruct (KdTree.isNull r) eqn:Hr0.
    - destruct (KdTree.isNull l) eqn:Hl0; [discriminate|auto].
    - destruct (KdTree.isNull l) eqn:Hl0; [auto|]. destruct (_ <? _); auto. }
  assert (Hb : exists s1,
             KdTree.nearestSearch metric eleSize point maxNodes
               (if bestIsLeft then l else r) s0 = KdTree.Done s1 /\
             length (KdTree.bestNodes s1) = k /\
             Forall (fun x => snd x <= dmax) (KdTree.bestNodes s1))
    by (destruct bestIsLeft; [apply Hl|apply Hr]; auto).
  destruct Hb as (s1 & -> & Hlen1 & Hall1).
  destruct (consider_radius maxNodes dmax node (metric point o) s1 Hk Hlen1 Hall1)
    as (bn2 & -> & Hlen2 & Hall2).
  cbn [KdTree.bestNodes].
  destruct bn2 as [|top rest] eqn:Hbn2; [cbn in Hlen2; lia|].
  rewrite hasRoomOrBeats_full by lia.
  destruct (lin <? snd top); [|eauto].
  destruct (KdTree.isNull (if bestIsLeft then r else l)) eqn:Hother; [eauto|].
  destruct bestIsLeft; [apply Hr|apply Hl]; auto.
Qed.

(** *** The size of the heap *)

(** Whatever the metric and the tree, the search leaves
    [min(k, size before + nodes of the subtree)] entries on the heap. *)
Lemma nearestSearch_size (t : KdTree.tree) :
  1 <= maxNodes -> t <> KdTree.Null ->
  forall s : KdTree.state,
    (length (KdTree.bestNodes s) <= k)%nat ->
    Forall (fun x => KdTree.isNull (fst x) = false) (KdTree.bestNodes s) ->
    exists s',
      KdTree.nearestSearch metric eleSize point maxNodes t s = KdTree.Done s' /\
      length (KdTree.bestNodes s')
      = (k `min` (length (KdTree.bestNodes s) + length (inorder t)))%nat /\
      Forall (fun x => KdTree.isNull (fst x) = false) (KdTree.bestNodes s').
Proof.
  intros Hk. induction t as [|o l IHl r IHr par d p]; [congruence|].
  intros _ s Hle Hall. cbn [KdTree.nearestSearch inorder].
  rewrite length_app. cbn [length].
  set (node := KdTree.Node o l r par d p).
  set (s0 := KdTree.mkState (KdTree.bestNodes s) (p :: KdTree.visited s)).
  set (lin := Z.abs (metric (KdTree.linearPoint eleSize point o d) o)).
  destruct (KdTree.isNull r && KdTree.isNull l) eqn:Hleaf.
  { apply andb_true_iff in Hleaf as [Hr0 Hl0].
    apply isNull_true in Hr0, Hl0. subst l r.
    destruct (consider_size maxNodes node (metric point o) s0 Hk Hle)
      as (bn' & -> & Hlen & Hnn).
    eexists. split; [reflexivity|].
    cbn [KdTree.bestNodes s0 inorder length] in *.
    split; [lia|]. now apply Hnn. }
  set (bestIsLeft := if KdTree.isNull r then true
                     else if KdTree.isNull l then false
                          else KdTree.coord point (d mod eleSize)
                               <? KdTree.coord o (d mod eleSize)).
  assert (Hl : KdTree.isNull l = false ->
               forall s : KdTree.state,
                 (length (KdTree.bestNodes s) <= k)%nat ->
                 Forall (fun x => KdTree.isNull (fst x) = false)
                        (KdTree.bestNodes s) ->
                 exists s',
                   KdTree.nearestSearch metric eleSize point maxNodes l s
                   = KdTree.Done s' /\
                   length (KdTree.bestNodes s')
                   = (k `min` (length (KdTree.bestNodes s)
                               + length (inorder l)))%nat /\
                   Forall (fun x => KdTree.isNull (fst x) = false)
                          (KdTree.bestNodes s'))
    by (intros Hnl; apply IHl; now apply isNull_false).
  assert (Hr : KdTree.isNull r = false ->
               forall s : KdTree.state,
                 (length (KdTree.bestNodes s) <= k)%nat ->
                 Forall (fun x => KdTree.isNull (fst x) = false)
                        (KdTree.bestNodes s) ->
                 exists s',
                   KdTree.nearestSearch metric eleSize point maxNodes r s
                   = KdTree.Done s' /\
                   length (KdTree.bestNodes s')
                   = (k `min` (length (KdTree.bestNodes s)
                               + length (inorder r)))%nat /\
                   Forall (fun x => KdTree.isNull (fst x) = false)
                          (KdTree.bestNodes s'))
    by (intros Hnr; apply IHr; now apply isNull_false).
  clear IHl IHr.
  assert (Hnull : forall t : KdTree.tree,
             KdTree.isNull t = true -> length (inorder t) = 0%nat)
    by (intros t Ht; apply isNull_true in Ht; now subst t).
  assert (Hbest : KdTree.isNull (if bestIsLeft then l else r) = false).
  { subst bestIsLeft. destruct (KdTree.isNull r) eqn:Hr0.
    - destruct (KdTree.isNull l) eqn:Hl0; [discriminate|auto].
    - destruct (KdTree.isNull l) eqn:Hl0; [auto|]. destruct (_ <? _); auto. }
  assert (Hb : exists s1,
             KdTree.nearestSearch metric eleSize point maxNodes
               (if bestIsLeft then l else r) s0 = KdTree.Done s1 /\
             length (KdTree.bestNodes s1)
             = (k `min` (length (KdTree.bestNodes s0)
                         + length (inorder (if bestIsLeft then l else r))))%nat /\
             Forall (fun x => KdTree.isNull (fst x) = false)
                    (KdTree.bestNodes s1))
    by (destruct bestIsLeft; [apply Hl|apply Hr]; auto).
  destruct Hb as (s1 & -> & Hlen1 & Hall1).
  cbn [KdTree.bestNodes s0] in Hlen1.
  destruct (consider_size maxNodes node (metric point o) s1 Hk)
    as (bn2 & -> & Hlen2 & Hall2); [lia|].
  specialize (Hall2 eq_refl Hall1).
  cbn [KdTree.bestNodes].
  set (s2 := KdTree.mkState bn2 (KdTree.visited s1)).
  assert (Hsum : (length (inorder (if bestIsLeft then l else r))
                  + length (inorder (if bestIsLeft then r else l))
                  = length (inorder l) + length (inorder r))%nat)
    by (destruct bestIsLeft; lia).
  assert (Hexplore : exists s',
             (if KdTree.isNull (if bestIsLeft then r else l)
              then KdTree.Done s2
              else KdTree.nearestSearch metric eleSize point maxNodes
                     (if bestIsLeft then r else l) s2)
             = KdTree.Done s' /\
             length (KdTree.bestNodes s')
             = (k `min` (length (KdTree.bestNodes s)
                         + (length (inorder l) + S (length (inorder r)))))%nat /\
             Forall (fun x => KdTree.isNull (fst x) = false)
                    (KdTree.bestNodes s')).
  { destruct (KdTree.isNull (if bestIsLeft then r else l)) eqn:Hother.
    - apply Hnull in Hother. exists s2. split; [reflexivity|].
      cbn [KdTree.bestNodes s2]. split; [lia|exact Hall2].
    - assert (Ho : exists s3,
                 KdTree.nearestSearch metric eleSize point maxNodes
                   (if bestIsLeft then r else l) s2 = KdTree.Done s3 /\
                 length (KdTree.bestNodes s3)
                 = (k `min` (length (KdTree.bestNodes s2)
                             + length (inorder (if bestIsLeft then r else l))))%nat /\
                 Forall (fun x => KdTree.isNull (fst x) = false)
                        (KdTree.bestNodes s3))
        by (destruct bestIsLeft; [apply Hr|apply Hl]; auto;
            cbn [KdTree.bestNodes s2]; lia).
      destruct Ho as (s3 & -> & Hlen3 & Hall3).
      exists s3. split; [reflexivity|].
      cbn [KdTree.bestNodes s2] in Hlen3. split; [lia|exact Hall3]. }
  destruct (decide (length bn2 < k)%nat) as [Hlt|Hge].
  { rewrite hasRoomOrBeats_room by auto. exact Hexplore. }
  destruct bn2 as [|top rest] eqn:Hbn2; [cbn in Hlen2; lia|].
  rewrite hasRoomOrBeats_full by lia.
  destruct (lin <? snd top); [exact Hexplore|].
  exists s2. split; [reflexivity|]. cbn [KdTree.bestNodes s2].
  split; [lia|exact Hall2].
Qed.

End SearchFacts.

(** ** Sorting and the brute-force reference *)

Section SortFacts.

Context {X : Type}.
Variable key : X -> Z.

Lemma insertBy_perm (x : X) (l : list X) : insertBy key x l ≡ₚ x :: l.
Proof.
  induction l as [|y l IH]; cbn; [reflexivity|].
  destruct (key x <=? key y); [reflexivity|].
  rewrite IH. apply perm_swap.
Qed.

Lemma sortBy_perm (l : list X) : sortBy key l ≡ₚ l.
Proof.
  induction l as [|x l IH]; cbn; [reflexivity|].
  rewrite insertBy_perm. now apply perm_skip.
Qed.

Lemma insertBy_sorted (x : X) (l : list X) :
  StronglySorted Z.le (key <$> l) ->
  StronglySorted Z.le (key <$> insertBy key x l).
Proof.
  induction l as [|y l IH]; cbn; intros H.
  - repeat constructor.
  - apply StronglySorted_inv in H as [Hl Hy].
    destruct (key x <=? key y) eqn:E.
    + apply Z.leb_le in E. cbn. constructor.
      * constructor; auto.
      * constructor; [exact E|].
        eapply Forall_impl; [exact Hy|]. cbn. intros z Hz. lia.
    + apply Z.leb_gt in E. cbn. constructor; [auto|].
      rewrite insertBy_perm. cbn. constructor; [lia|exact Hy].
Qed.

Lemma sortBy_sorted (l : list X) : StronglySorted Z.le (key <$> sortBy key l).
Proof.
  induction l as [|x l IH]; cbn; [constructor|].
  now apply insertBy_sorted.
Qed.

End SortFacts.

Lemma sorted_perm_unique (l1 : list Z) :
  forall l2 : list Z,
    StronglySorted Z.le l1 -> StronglySorted Z.le l2 -> l1 ≡ₚ l2 -> l1 = l2.
Proof.
  induction l1 as [|a l1 IH]; intros l2 H1 H2 Hp.
  - apply Permutation_nil in Hp. now subst.
  - destruct l2 as [|b l2];
      [symmetry in Hp; apply Permutation_nil in Hp; discriminate|].
    apply StronglySorted_inv in H1 as [H1 Ha].
    apply StronglySorted_inv in H2 as [H2 Hb].
    assert (Hab : a = b).
    { assert (Hain : a ∈ b :: l2) by (rewrite <- Hp; apply list_elem_of_here).
      assert (Hbin : b ∈ a :: l1) by (rewrite Hp; apply list_elem_of_here).
      rewrite Forall_forall in Ha, Hb.
      apply elem_of_cons in Hain as [?|Hain]; [auto|].
      apply elem_of_cons in Hbin as [?|Hbin]; [auto|].
      specialize (Ha _ Hbin). specialize (Hb _ Hain). lia. }
    subst b. f_equal. apply IH; auto.
    now apply Permutation_cons_inv in Hp.
Qed.

Lemma sorted_app (l1 l2 : list Z) :
  StronglySorted Z.le l1 -> StronglySorted Z.le l2 ->
  (forall x y : Z, x ∈ l1 -> y ∈ l2 -> x <= y) ->
  StronglySorted Z.le (l1 ++ l2).
Proof.
  induction l1 as [|a l1 IH]; cbn; intros H1 H2 H; [exact H2|].
  apply StronglySorted_inv in H1 as [H1 Ha]. constructor.
  - apply IH; auto. intros x y Hx Hy. apply H; auto.
    now apply list_elem_of_further.
  - apply Forall_app. split; [exact Ha|].
    apply Forall_forall. intros y Hy. apply H; auto. apply list_elem_of_here.
Qed.

(** The [k] smallest distances of a scan are those of any [k] candidates
    that no candidate left out beats. *)
Lemma smallest_by_scan {X Y : Type} (all : list (X * Z)) (kept left_out : list (Y * Z))
      (k : nat) :
  snd <$> all ≡ₚ snd <$> (kept ++ left_out) ->
  length kept = k ->
  (forall x y, x ∈ left_out -> y ∈ kept -> snd y <= snd x) ->
  snd <$> take k (sortBy snd all) ≡ₚ snd <$> kept.
Proof.
  intros Hperm Hlen Hfar.
  assert (Heq : snd <$> sortBy snd all
                = (snd <$> sortBy snd kept) ++ (snd <$> sortBy snd left_out)).
  { apply sorted_perm_unique.
    - apply sortBy_sorted.
    - apply sorted_app; try apply sortBy_sorted.
      intros x y Hx Hy.
      apply list_elem_of_fmap in Hx as (ex & -> & Hx).
      apply list_elem_of_fmap in Hy as (ey & -> & Hy).
      rewrite sortBy_perm in Hx, Hy. now apply Hfar.
    - rewrite !sortBy_perm, Hperm, fmap_app. reflexivity. }
  rewrite fmap_take, Heq, take_app_length'.
  - now rewrite sortBy_perm.
  - rewrite length_fmap, <- Hlen. apply Permutation_length.
    symmetry. apply sortBy_perm.
Qed.

(** ** The stand-ins meet what is asked of them *)

Lemma sqDist_nonneg : nonNegative sqDist.
Proof.
  intros a. induction a as [|x a IH]; intros [|y b]; cbn; try lia.
  specialize (IH b). nia.
Qed.

Lemma sqDist_same (a : list Z) : sqDist a a = 0.
Proof. induction a as [|x a IH]; cbn; [reflexivity|]. rewrite IH. nia. Qed.

Lemma sqDist_insert (obj : list Z) :
  forall (a : nat) (v : Z),
    (a < length obj)%nat ->
    sqDist (<[a:=v]> obj) obj = (v - KdTree.coord obj a) ^ 2.
Proof.
  unfold KdTree.coord.
  induction obj as [|x obj IH]; intros a v Ha; [cbn in Ha; lia|].
  destruct a as [|a]; cbn.
  - rewrite sqDist_same. lia.
  - rewrite IH by (cbn in Ha; lia). nia.
Qed.

Lemma sqDist_axis (q : list Z) :
  forall (p : list Z) (a : nat),
    (a < length q)%nat -> length q = length p ->
    (KdTree.coord q a - KdTree.coord p a) ^ 2 <= sqDist q p.
Proof.
  unfold KdTree.coord.
  induction q as [|x q IH]; intros [|y p] a Ha Hlen; cbn in *; try lia.
  pose proof (sqDist_nonneg q p).
  destruct a as [|a].
  - nia.
  - specialize (IH p a). assert (0 <= (x - y) ^ 2) by nia.
    assert ((nth a q 0 - nth a p 0) ^ 2 <= sqDist q p) by (apply IH; lia).
    lia.
Qed.

Lemma linearPoint_insert (eleSize : nat) (point obj : list Z) (depth : nat) :
  (0 < eleSize)%nat -> length obj = eleSize ->
  KdTree.linearPoint eleSize point obj depth
  = <[(depth mod eleSize)%nat := KdTree.coord point (depth mod eleSize)]> obj.
Proof.
  intros He Hlen. unfold KdTree.linearPoint.
  assert (Ha : (depth mod eleSize < eleSize)%nat)
    by (apply Nat.mod_upper_bound; lia).
  set (a := (depth mod eleSize)%nat) in *.
  apply list_eq. intros i. rewrite list_lookup_fmap.
  destruct (decide (i < eleSize)%nat) as [Hi|Hi].
  - rewrite (proj2 (lookup_seq 0 eleSize i i)) by (split; [reflexivity|lia]).
    cbn. destruct (i =? a)%nat eqn:E.
    + apply Nat.eqb_eq in E. subst i.
      now rewrite list_lookup_insert_eq by lia.
    + apply Nat.eqb_neq in E. rewrite list_lookup_insert_ne by auto.
      unfold KdTree.coord. rewrite nth_lookup.
      destruct (obj !! i) eqn:Eo; [reflexivity|].
      apply lookup_ge_None in Eo. lia.
  - rewrite (proj2 (lookup_ge_None (seq 0 eleSize) i))
      by (rewrite length_seq; lia).
    cbn. symmetry. apply lookup_ge_None. rewrite length_insert. lia.
Qed.

Lemma sqDist_perAxisMonotonic (eleSize : nat) :
  (0 < eleSize)%nat -> perAxisMonotonic sqDist eleSize.
Proof.
  intros He point obj p depth Hq Ho Hp a Hside.
  assert (Ha : (a < eleSize)%nat) by (apply Nat.mod_upper_bound; lia).
  rewrite linearPoint_insert by auto. fold a.
  rewrite sqDist_insert by lia.
  pose proof (sqDist_axis point p a) as Hax.
  assert ((KdTree.coord point a - KdTree.coord p a) ^ 2 <= sqDist point p)
    by (apply Hax; lia).
  nia.
Qed.

Lemma sorted_lookup (l : list Z) :
  StronglySorted Z.le l ->
  forall (i j : nat) (x y : Z),
    (i <= j)%nat -> l !! i = Some x -> l !! j = Some y -> x <= y.
Proof.
  induction 1 as [|a l Hl IH Ha]; intros i j x y Hij Hx Hy; [discriminate|].
  destruct i as [|i], j as [|j]; cbn in Hx, Hy; try lia.
  - injection Hx as <-. injection Hy as <-. lia.
  - injection Hx as <-. rewrite Forall_forall in Ha. apply Ha.
    apply list_elem_of_lookup. eauto.
  - apply (IH i j); auto. lia.
Qed.

Section SortModelFacts.

Local Open Scope nat_scope.

Variable eleSize : nat.
Hypothesis eleSize_pos : 0 < eleSize.

Lemma concat_points_length (ps : list (list Z)) :
  Forall (fun p => length p = eleSize) ps ->
  length (concat ps) = length ps * eleSize.
Proof.
  induction 1 as [|p ps Hp _ IH]; cbn; [reflexivity|].
  rewrite length_app. lia.
Qed.

Lemma pointsOf_concat (ps : list (list Z)) :
  Forall (fun p => length p = eleSize) ps ->
  pointsOf eleSize (concat ps) = ps.
Proof.
  induction 1 as [|p ps Hp _ IH]; cbn [concat].
  - apply pointsOf_nil.
  - rewrite pointsOf_app with (k := 1) by (auto; lia).
    rewrite pointsOf_single, IH by auto. reflexivity.
Qed.

Lemma pointsOf_whole (buf : list Z) :
  Forall (fun p => length p = eleSize) (pointsOf eleSize buf).
Proof.
  apply Forall_forall. intros p Hp.
  eapply pointsOf_point_length; eauto.
Qed.

Lemma sorted_points_whole (buf : list Z) (dim : nat) :
  Forall (fun p => length p = eleSize)
         (sortBy (fun p => KdTree.coord p dim) (pointsOf eleSize buf)).
Proof. rewrite sortBy_perm. apply pointsOf_whole. Qed.

Lemma quickSortIP_model_length : keepsLength eleSize quickSortIP_model.
Proof.
  intros buf dim. unfold quickSortIP_model.
  rewrite length_app, concat_points_length by apply sorted_points_whole.
  rewrite (Permutation_length (sortBy_perm _ _)).
  rewrite pointsOf_length, length_drop.
  pose proof (Nat.Div0.mul_div_le (length buf) eleSize). lia.
Qed.

Lemma quickSortIP_model_sorts : sortsAlongAxis eleSize quickSortIP_model.
Proof.
  intros buf dim Hwf Hdim. unfold quickSortIP_model.
  assert (Hfull : length buf / eleSize * eleSize = length buf).
  { apply Nat.Div0.div_exact in Hwf. lia. }
  rewrite Hfull, drop_all, app_nil_r.
  rewrite pointsOf_concat by apply sorted_points_whole.
  split; [apply sortBy_perm|].
  intros i j p q Hij Hp Hq.
  apply (sorted_lookup _ (sortBy_sorted (fun p => KdTree.coord p dim)
                            (pointsOf eleSize buf)) i j); auto;
    rewrite list_lookup_fmap; [rewrite Hp|rewrite Hq]; reflexivity.
Qed.

End SortModelFacts.

(** * The claims of the specification *)

(** ** The builder *)

Section BuilderClaims.

Local Open Scope nat_scope.

Variable quickSortIP : list Z -> nat -> nat -> list Z.
Variable eleSize : nat.
Hypothesis eleSize_pos : 0 < eleSize.
Hypothesis sort_length : keepsLength eleSize quickSortIP.
Hypothesis sort_correct : sortsAlongAxis eleSize quickSortIP.

(** The constructor on a buffer of [n] whole points. *)
Lemma new_kdTree_correct (points : list Z) (n : nat) :
  length points = n * eleSize ->
  exists t : KdTree.kdTree,
    KdTree.new_kdTree quickSortIP eleSize points = Ok t /\
    length (KdTree.buffer t) = length points /\
    pointsOf eleSize (KdTree.buffer t) ≡ₚ pointsOf eleSize points /\
    objs (KdTree.root t) = pointsOf eleSize (KdTree.buffer t) /\
    posOf <$> inorder (KdTree.root t) = seq 0 n /\
    ordered eleSize (KdTree.root t) /\
    depthsFrom 0 (KdTree.root t).
Proof.
  intros Hn. unfold KdTree.new_kdTree.
  destruct (buildTree_correct quickSortIP eleSize eleSize_pos sort_length
              sort_correct (S (length points)) points 0 None 0
              (KdTree.mkStats 0 0) n Hn)
    as (t & win & st & -> & H); [lia|].
  cbn [rbind]. eexists. split; [reflexivity|]. exact H.
Qed.

(** C3.  For every tree built from a buffer of whole points with a sort
    that orders the window along the partition axis, every node with
    axis [a = depth mod eleSize] has the points of its left subtree at or
    below its own coordinate [a] and those of its right subtree at or
    above it; [depth] is the depth of the node below the root, and the
    tree holds exactly the points of the buffer. *)
Theorem built_tree_is_ordered (points : list Z) :
  length points mod eleSize = 0 ->
  exists t : KdTree.kdTree,
    KdTree.new_kdTree quickSortIP eleSize points = Ok t /\
    ordered eleSize (KdTree.root t) /\
    depthsFrom 0 (KdTree.root t) /\
    objs (KdTree.root t) ≡ₚ pointsOf eleSize points.
Proof.
  intros Hwf.
  destruct (new_kdTree_correct points (length points / eleSize))
    as (t & Ht & _ & Hperm & Hobjs & _ & Hord & Hdepth).
  { apply Nat.Div0.div_exact in Hwf. lia. }
  exists t. split; [exact Ht|]. split; [exact Hord|].
  split; [exact Hdepth|]. now rewrite Hobjs.
Qed.

(** C9, as amended.  For every node of a tree built from a buffer of
    whole points, the node's stored index is the position of its point
    in the buffer as the build leaves it, reordered in place: the
    coordinates found there are the node's.  (The buffer after the build
    holds the points it held before, in another order.) *)
Theorem pos_indexes_reordered_buffer (points : list Z) :
  length points mod eleSize = 0 ->
  exists t : KdTree.kdTree,
    KdTree.new_kdTree quickSortIP eleSize points = Ok t /\
    pointsOf eleSize (KdTree.buffer t) ≡ₚ pointsOf eleSize points /\
    indexesBuffer eleSize (KdTree.buffer t) (KdTree.root t).
Proof.
  intros Hwf.
  destruct (new_kdTree_correct points (length points / eleSize))
    as (t & Ht & _ & Hperm & Hobjs & Hpos & _ & _).
  { apply Nat.Div0.div_exact in Hwf. lia. }
  exists t. split; [exact Ht|]. split; [exact Hperm|].
  intros n Hn. apply list_elem_of_lookup in Hn as (i & Hi).
  assert (Hp : (posOf <$> inorder (KdTree.root t)) !! i = Some (posOf n))
    by (rewrite list_lookup_fmap, Hi; reflexivity).
  rewrite Hpos in Hp. apply lookup_seq in Hp as [Hp Hlt]. cbn in Hp.
  assert (Ho : objs (KdTree.root t) !! i = Some (objOf n))
    by (unfold objs; rewrite list_lookup_fmap, Hi; reflexivity).
  rewrite Hobjs in Ho. unfold pointsOf in Ho.
  rewrite list_lookup_fmap in Ho.
  destruct (seq 0 (length (KdTree.buffer t) / eleSize) !! i) as [j|] eqn:Ej;
    [|discriminate].
  apply lookup_seq in Ej as [-> _]. cbn in Ho.
  injection Ho as <-. now rewrite Hp.
Qed.

End BuilderClaims.


(** ** The heap *)

Lemma heapProperty_nil {A : Type} (score : A -> Z) : heapProperty score [].
Proof. intros n m x y Hx. discriminate. Qed.

(** C8.  The heap property is an invariant of every run of [push] and
    [pop]: from an ordered content every operation succeeds and leaves
    every entry scoring at most as much as its children at [2n+1] and
    [2n+2], equivalently at least as much as its parent at
    [floor((n+1)/2)-1]; hence [peek] is an entry of least score, and it
    is the entry [pop] returns. *)
Theorem heap_property_invariant {A : Type} (score : A -> Z)
        (ops : list (heapOp (A:=A))) (c : list A) :
  heapProperty score c ->
  exists c' : list A,
    runOps score ops c = Ok c' /\
    heapProperty score c' /\
    parentProperty score c' /\
    (forall top : A,
        BinaryHeap.peek c' = Some top ->
        forall y : A, y ∈ c' -> score top <= score y) /\
    (exists rest : list A,
        BinaryHeap.pop score c' = Ok (BinaryHeap.peek c', rest) /\
        heapProperty score rest).
Proof.
  intros Hc. destruct (runOps_correct score ops c) as (c' & Hrun & Hinv).
  specialize (Hinv Hc). exists c'. split; [exact Hrun|]. split; [exact Hinv|].
  split; [now apply heapProperty_parent|]. split.
  - intros top Htop y Hy. apply list_elem_of_lookup in Hy as (i & Hi).
    apply heapProperty_parent in Hinv.
    exact (parentProperty_root_min score c' top Hinv Htop i y Hi).
  - destruct c' as [|x rest].
    + exists []. split; [reflexivity|]. apply heapProperty_nil.
    + destruct (pop_correct score x rest) as (c'' & Hpop & _ & Hh).
      exists c''. split; [exact Hpop|]. now apply Hh.
Qed.

Lemma heap_property_invariant_witness :
  exists c' : list Z,
    runOps (fun x => x) [OpPush 5; OpPush 3; OpPush 4; OpPop; OpPush 1] []
    = Ok c' /\
    heapProperty (fun x => x) c' /\
    parentProperty (fun x => x) c' /\
    (forall top : Z,
        BinaryHeap.peek c' = Some top ->
        forall y : Z, y ∈ c' -> top <= y) /\
    (exists rest : list Z,
        BinaryHeap.pop (fun x => x) c' = Ok (BinaryHeap.peek c', rest) /\
        heapProperty (fun x => x) rest).
Proof.
  apply (heap_property_invariant (fun x : Z => x)).
  apply heapProperty_nil.
Defined.

(** ** The search *)

Lemma inorder_not_null (t : KdTree.tree) :
  t <> KdTree.Null <-> inorder t <> [].
Proof.
  destruct t as [|o l r par d p]; cbn; [tauto|].
  split; [|congruence]. intros _ H.
  apply (f_equal length) in H. rewrite length_app in H. cbn in H. lia.
Qed.

(** On the empty heap with [maxNodes < 1] the admission rule throws
    before [saveNode] is reached: [size() < maxNodes] is false and
    [peek()] is [undefined]. *)
Lemma consider_no_capacity (maxNodes : Z) (node : KdTree.tree) (d : Z)
      (s : KdTree.state) :
  maxNodes < 1 -> KdTree.bestNodes s = [] ->
  KdTree.consider maxNodes node d s = KdTree.Throw TypeError s.
Proof.
  intros Hk Hs. unfold KdTree.consider, KdTree.hasRoomOrBeats. rewrite Hs.
  cbn [BinaryHeap.size length BinaryHeap.peek lookup list_lookup].
  destruct (Z.of_nat 0 <? maxNodes) eqn:E; [apply Z.ltb_lt in E; lia|].
  reflexivity.
Qed.

(** The way down starts at the node given and ends at the first leaf
    met. *)
Lemma descent_shape (eleSize : nat) (point : list Z) (t : KdTree.tree) :
  t <> KdTree.Null ->
  head (descent eleSize point t) = Some t /\
  exists (above : list KdTree.tree) (leaf : KdTree.tree),
    descent eleSize point t = above ++ [leaf] /\
    isLeaf leaf = true /\
    Forall (fun n => isLeaf n = false) above.
Proof.
  induction t as [|o l IHl r IHr par d p]; [congruence|]. intros _.
  split; [reflexivity|]. cbn [descent].
  destruct (KdTree.isNull r && KdTree.isNull l) eqn:Hleaf.
  - exists [], (KdTree.Node o l r par d p).
    split; [reflexivity|]. split; [exact Hleaf|constructor].
  - assert (Hbest : exists best,
               (if (if KdTree.isNull r then true
                    else if KdTree.isNull l then false
                         else KdTree.coord point (d mod eleSize)
                              <? KdTree.coord o (d mod eleSize))
                then l else r) = best /\
               best <> KdTree.Null /\ (best = l \/ best = r)).
    { destruct (KdTree.isNull r) eqn:Hr0.
      - destruct (KdTree.isNull l) eqn:Hl0; [discriminate|].
        apply isNull_false in Hl0. eauto.
      - apply isNull_false in Hr0.
        destruct (KdTree.isNull l) eqn:Hl0; [eauto|].
        apply isNull_false in Hl0. destruct (_ <? _); eauto. }
    destruct Hbest as (best & -> & Hnn & Hwhich).
    assert (IH : exists (above : list KdTree.tree) (leaf : KdTree.tree),
               descent eleSize point best = above ++ [leaf] /\
               isLeaf leaf = true /\
               Forall (fun n => isLeaf n = false) above)
      by (destruct Hwhich as [->| ->]; [apply IHl|apply IHr]; auto).
    destruct IH as (above & leaf & -> & Hl & Hall).
    exists (KdTree.Node o l r par d p :: above), leaf.
    split; [reflexivity|]. split; [exact Hl|].
    constructor; [exact Hleaf|exact Hall].
Qed.

Section SearchClaims.

Variable metric : list Z -> list Z -> Z.
Variable eleSize : nat.
Variable point : list Z.
Variable maxNodes : Z.


(** Without radius and with [1 <= k <= N], on a valid tree, the query
    returns [k] of the tree's candidates, and no candidate left out is
    nearer than one returned. *)
Lemma nearest_keeps_k_nearest (root : KdTree.tree) :
  nonNegative metric -> perAxisMonotonic metric eleSize ->
  length point = eleSize -> validTree eleSize root ->
  1 <= maxNodes -> (Z.to_nat maxNodes <= length (inorder root))%nat ->
  exists (result left_out : list KdTree.entry) (s : KdTree.state),
    KdTree.nearest metric eleSize point maxNodes root None = (Ok result, s) /\
    result ++ left_out ≡ₚ entriesOf metric point root /\
    length result = Z.to_nat maxNodes /\
    (forall x y, x ∈ left_out -> y ∈ result -> snd y <= snd x).
Proof.
  intros Hnn Hax Hq Hvalid Hk HN.
  assert (Hroot : root <> KdTree.Null).
  { apply inorder_not_null. intros H. rewrite H in HN. cbn in HN. lia. }
  unfold KdTree.nearest.
  destruct (nearestSearch_correct metric eleSize point maxNodes Hk Hq Hnn Hax
              root Hroot Hvalid (KdTree.mkState [] []) [])
    as (s' & D' & -> & HInv & Hperm).
  { apply bestInv_nil. }
  cbn [KdTree.bestNodes] in Hperm. rewrite !app_nil_r in Hperm.
  destruct HInv as (Hheap & Hle & Hroom & Hfar).
  assert (Hlen : length (KdTree.bestNodes s') = Z.to_nat maxNodes).
  { destruct (decide (length (KdTree.bestNodes s') < Z.to_nat maxNodes)%nat)
      as [Hlt|]; [|lia].
    rewrite (Hroom Hlt), app_nil_r in Hperm.
    apply Permutation_length in Hperm. unfold entriesOf in Hperm.
    rewrite length_fmap in Hperm. lia. }
  destruct (collect_inside (Z.to_nat maxNodes) 0 (KdTree.bestNodes s') [])
    as (r & Hcol & _ & Hall); [lia|].
  assert (Hr : r = KdTree.bestNodes s').
  { rewrite Hall.
    - rewrite drop_0, take_ge by lia. reflexivity.
    - apply Forall_forall. intros x Hx.
      assert (Hx' : x ∈ entriesOf metric point root)
        by (rewrite <- Hperm; apply elem_of_app; auto).
      now apply entriesOf_elem in Hx' as (_ & _ & ?). }
  subst r. cbn [app] in Hcol.
  exists (KdTree.bestNodes s'), D', s'. rewrite Hcol. auto.
Qed.

(** Without radius and with [1 <= k <= N], whatever the metric and the
    tree, the query returns exactly [k] results. *)
Lemma nearest_returns_k (root : KdTree.tree) :
  1 <= maxNodes -> (Z.to_nat maxNodes <= length (inorder root))%nat ->
  exists (result : list KdTree.entry) (s : KdTree.state),
    KdTree.nearest metric eleSize point maxNodes root None = (Ok result, s) /\
    length result = Z.to_nat maxNodes.
Proof.
  intros Hk HN.
  assert (Hroot : root <> KdTree.Null).
  { apply inorder_not_null. intros H. rewrite H in HN. cbn in HN. lia. }
  unfold KdTree.nearest.
  destruct (nearestSearch_size metric eleSize point maxNodes root Hk Hroot
              (KdTree.mkState [] []))
    as (s' & -> & Hlen & Hall); [cbn; lia|constructor|].
  cbn [KdTree.bestNodes length] in Hlen.
  destruct (collect_inside (Z.to_nat maxNodes) 0 (KdTree.bestNodes s') [])
    as (r & -> & _ & Hr); [lia|].
  exists r, s'. split; [reflexivity|].
  rewrite (Hr Hall), drop_0, take_ge by lia. lia.
Qed.

(** With [maxNodes < 1] and an empty heap, [nearestSearch] goes down by
    [bestChild] to the first leaf and throws there: the outcome is the
    failure, the heap still empty, and the nodes visited are those of the
    way down and no other. *)
Lemma nearestSearch_descent (t : KdTree.tree) :
  maxNodes < 1 ->
  forall s : KdTree.state,
    KdTree.bestNodes s = [] ->
    KdTree.nearestSearch metric eleSize point maxNodes t s
    = KdTree.Throw TypeError
        (KdTree.mkState []
           (reverse (posOf <$> descent eleSize point t)
            ++ KdTree.visited s)).
Proof.
  intros Hk. induction t as [|o l IHl r IHr par d p]; intros s Hs.
  - destruct s as [bn vis]. cbn in Hs. subst bn. reflexivity.
  - cbn [KdTree.nearestSearch descent]. rewrite fmap_cons, reverse_cons.
    cbn [posOf].
    set (s0 := KdTree.mkState (KdTree.bestNodes s) (p :: KdTree.visited s)).
    assert (Hs0 : KdTree.bestNodes s0 = []) by exact Hs.
    destruct (KdTree.isNull r && KdTree.isNull l) eqn:Hleaf.
    + rewrite consider_no_capacity by auto.
      subst s0. rewrite Hs. reflexivity.
    + assert (IH : forall best : KdTree.tree,
                 best = l \/ best = r ->
                 KdTree.nearestSearch metric eleSize point maxNodes best s0
                 = KdTree.Throw TypeError
                     (KdTree.mkState []
                        (reverse (posOf <$> descent eleSize point best)
                         ++ KdTree.visited s0)))
        by (intros best [->| ->]; [apply IHl|apply IHr]; exact Hs0).
      rewrite IH.
      * subst s0. cbn [KdTree.visited]. now rewrite <- app_assoc.
      * destruct (KdTree.isNull r); [now left|].
        destruct (KdTree.isNull l); [now right|].
        destruct (_ <? _); auto.
Qed.

(** The whole query with [maxNodes < 1] on a non-empty tree. *)
Lemma nearest_no_capacity (root : KdTree.tree) (maxDistance : option Z) :
  maxNodes < 1 -> root <> KdTree.Null ->
  exists (s : KdTree.state) (path : list nat),
    KdTree.nearest metric eleSize point maxNodes root maxDistance
    = (Err TypeError, s) /\
    KdTree.bestNodes s = [] /\
    KdTree.visited s = path ++ [posOf root].
Proof.
  intros Hk Hroot. unfold KdTree.nearest.
  assert (Hseed : match maxDistance with
                  | Some d => if KdTree.truthy maxDistance
                              then KdTree.preseed (Z.to_nat maxNodes) d []
                              else Ok []
                  | None => Ok []
                  end = Ok (@nil KdTree.entry)).
  { replace (Z.to_nat maxNodes) with 0%nat by lia.
    destruct maxDistance; [destruct (KdTree.truthy _)|]; reflexivity. }
  rewrite Hseed.
  destruct (nearestSearch_no_capacity metric eleSize point maxNodes root Hk
              Hroot (KdTree.mkState [] []) eq_refl)
    as (s' & path & -> & Hbn & Hvis).
  exists s', path. auto.
Qed.

(** C6, as amended.  [nearest] does not validate [k]: for every query
    with [k < 1] on a non-empty tree, whatever the radius, the traversal
    starts at the root and goes down by [bestChild] to the first leaf,
    where the call fails with a [TypeError] (the top of the empty heap is
    read).  The nodes visited are exactly those of this way down, the
    root first and the leaf last, no node above the leaf being a leaf;
    the heap is empty when the call fails, and no entry can have been
    admitted on the way: on the empty heap the admission rule fails
    before [saveNode] is reached. *)
Theorem small_k_fails_inside_traversal (root : KdTree.tree)
        (maxDistance : option Z) :
  maxNodes < 1 -> root <> KdTree.Null ->
  KdTree.nearest metric eleSize point maxNodes root maxDistance
  = (Err TypeError,
     KdTree.mkState [] (reverse (posOf <$> descent eleSize point root))) /\
  head (descent eleSize point root) = Some root /\
  (exists (above : list KdTree.tree) (leaf : KdTree.tree),
      descent eleSize point root = above ++ [leaf] /\
      isLeaf leaf = true /\
      Forall (fun n => isLeaf n = false) above) /\
  (forall (node : KdTree.tree) (d : Z) (s : KdTree.state),
      KdTree.bestNodes s = [] ->
      KdTree.consider maxNodes node d s = KdTree.Throw TypeError s).
Proof.
  intros Hk Hroot. split; [|split; [|split]].
  - unfold KdTree.nearest.
    assert (Hseed : match maxDistance with
                    | Some d => if KdTree.truthy maxDistance
                                then KdTree.preseed (Z.to_nat maxNodes) d []
                                else Ok []
                    | None => Ok []
                    end = Ok (@nil KdTree.entry)).
    { replace (Z.to_nat maxNodes) with 0%nat by lia.
      destruct maxDistance; [destruct (KdTree.truthy _)|]; reflexivity. }
    rewrite Hseed, (nearestSearch_descent root Hk (KdTree.mkState [] []))
      by reflexivity.
    cbn [KdTree.visited]. now rewrite app_nil_r.
  - now apply descent_shape.
  - now apply descent_shape.
  - intros node d s Hs. now apply consider_no_capacity.
Qed.

(** C7, as amended.  For every query with a radius [d] other than [0],
    no returned distance exceeds [d]; and on a non-empty tree with
    [k >= 1] the query does return. *)
Theorem radius_bounds_results (root : KdTree.tree) (d : Z) :
  d <> 0 ->
  withinRadius d
    (KdTree.nearest metric eleSize point maxNodes root (Some d)) /\
  (root <> KdTree.Null -> 1 <= maxNodes ->
   exists (result : list KdTree.entry) (s : KdTree.state),
     KdTree.nearest metric eleSize point maxNodes root (Some d)
     = (Ok result, s)).
Proof.
  intros Hd.
  assert (Hrun : root <> KdTree.Null -> 1 <= maxNodes ->
                 exists (result : list KdTree.entry) (s : KdTree.state),
                   KdTree.nearest metric eleSize point maxNodes root (Some d)
                   = (Ok result, s) /\
                   Forall (fun x => snd x <= d) result).
  { intros Hroot Hk. unfold KdTree.nearest, KdTree.truthy.
    destruct (d =? 0) eqn:E; [apply Z.eqb_eq in E; lia|]. cbn [negb].
    destruct (preseed_correct d (Z.to_nat maxNodes) [])
      as (bn0 & -> & Hp0).
    rewrite app_nil_r in Hp0.
    destruct (nearestSearch_radius metric eleSize point maxNodes d root Hk
                Hroot (KdTree.mkState bn0 []))
      as (s' & -> & Hlen & Hall).
    { cbn. rewrite Hp0. apply length_replicate. }
    { cbn. rewrite Hp0. apply Forall_replicate. cbn. lia. }
    destruct (collect_inside (Z.to_nat maxNodes) 0 (KdTree.bestNodes s') [])
      as (r & -> & Hin & _); [lia|].
    exists r, s'. split; [reflexivity|].
    apply Forall_forall. intros x Hx. rewrite Forall_forall in Hall.
    apply Hall. now apply Hin. }
  split.
  - intros result Hres.
    destruct (KdTree.isNull root) eqn:Hroot;
      [apply isNull_true in Hroot; subst root|apply isNull_false in Hroot].
    { unfold KdTree.nearest in Hres.
      destruct (if KdTree.truthy (Some d) then _ else _) in Hres;
        cbn in Hres; discriminate. }
    destruct (decide (1 <= maxNodes)) as [Hk|Hk].
    + destruct (Hrun Hroot Hk) as (result' & s & Heq & Hall).
      rewrite Heq in Hres. cbn in Hres. now injection Hres as <-.
    + destruct (nearest_no_capacity root (Some d))
        as (s & path & Heq & _); [lia|auto|].
      rewrite Heq in Hres. discriminate.
  - intros Hroot Hk. destruct (Hrun Hroot Hk) as (result & s & Heq & _).
    eauto.
Qed.

(** C10.  A radius given as [0] (or absent: any falsy value) is no
    radius: the heap is not seeded and the query is, step for step, the
    query without [maxDistance]. *)
Theorem falsy_radius_is_no_radius (root : KdTree.tree)
        (maxDistance : option Z) :
  KdTree.truthy maxDistance = false ->
  KdTree.nearest metric eleSize point maxNodes root maxDistance
  = KdTree.nearest metric eleSize point maxNodes root None.
Proof.
  intros H. unfold KdTree.nearest.
  destruct maxDistance as [d|]; [|reflexivity].
  now rewrite H.
Qed.

(** C4, the code against the claim.  An empty buffer builds a tree
    without root, and every query on it raises a [TypeError]
    ([nearestSearch] reads [node.depth] of [null]) instead of returning
    an empty result.  ([eleSize >= 1] is what makes [plength] the number
    [0] for the empty buffer.) *)
Theorem empty_tree_query_throws
        (quickSortIP : list Z -> nat -> nat -> list Z)
        (maxDistance : option Z) :
  (0 < eleSize)%nat ->
  exists t : KdTree.kdTree,
    KdTree.new_kdTree quickSortIP eleSize [] = Ok t /\
    KdTree.root t = KdTree.Null /\
    fst (KdTree.nearest metric eleSize point maxNodes (KdTree.root t)
           maxDistance) = Err TypeError.
Proof.
  intros _. eexists. split; [reflexivity|]. split; [reflexivity|].
  cbn [KdTree.root]. unfold KdTree.nearest.
  destruct maxDistance as [d|]; [|reflexivity].
  destruct (KdTree.truthy (Some d)); [|reflexivity].
  destruct (preseed_correct d (Z.to_nat maxNodes) []) as (bn & -> & _).
  reflexivity.
Qed.

End SearchClaims.

(** ** Build, then query *)

Section EndToEnd.

Variable quickSortIP : list Z -> nat -> nat -> list Z.
Variable metric : list Z -> list Z -> Z.
Variable eleSize : nat.
Hypothesis eleSize_pos : (0 < eleSize)%nat.
Hypothesis sort_length : keepsLength eleSize quickSortIP.
Hypothesis sort_correct : sortsAlongAxis eleSize quickSortIP.

(** What the code delivers of the k-nearest-neighbour contract.  For a
    buffer of [N] whole points, a query point of [eleSize] coordinates, a
    non-negative metric that is monotonic per axis, no radius and
    [1 <= k <= N]: the query returns exactly [k] pairs, they are distinct
    nodes of the tree with their true distances, and their distances
    are, as a multiset, the [k] smallest found by the linear scan over
    all [N] points. *)
Lemma nearest_matches_bruteForce (points point : list Z) (N : nat) (k : Z) :
  nonNegative metric -> perAxisMonotonic metric eleSize ->
  length points = (N * eleSize)%nat -> length point = eleSize ->
  1 <= k <= Z.of_nat N ->
  exists (t : KdTree.kdTree) (result left_out : list KdTree.entry)
         (s : KdTree.state),
    KdTree.new_kdTree quickSortIP eleSize points = Ok t /\
    KdTree.nearest metric eleSize point k (KdTree.root t) None
    = (Ok result, s) /\
    length result = Z.to_nat k /\
    result ++ left_out ≡ₚ entriesOf metric point (KdTree.root t) /\
    snd <$> result
    ≡ₚ snd <$> bruteForce metric point (Z.to_nat k) (pointsOf eleSize points).
Proof.
  intros Hnn Hax Hlen Hq Hk.
  destruct (new_kdTree_correct quickSortIP eleSize eleSize_pos sort_length
              sort_correct points N Hlen)
    as (t & Ht & _ & Hperm & Hobjs & Hpos & Hord & _).
  assert (HN : length (inorder (KdTree.root t)) = N).
  { apply (f_equal length) in Hpos.
    now rewrite length_fmap, length_seq in Hpos. }
  destruct (nearest_keeps_k_nearest metric eleSize point k (KdTree.root t))
    as (result & left_out & s & Hrun & Hsub & Hlenr & Hfar); auto.
  { split; [exact Hord|]. rewrite Hobjs. now apply pointsOf_whole. }
  { lia. }
  { lia. }
  exists t, result, left_out, s. repeat split; auto.
  unfold bruteForce. symmetry. apply smallest_by_scan with (left_out := left_out); auto.
  rewrite Hsub. unfold entriesOf.
  rewrite <- !list_fmap_compose.
  change (snd ∘ (fun p : list Z => (p, metric point p))) with (metric point).
  rewrite <- Hperm, <- Hobjs. unfold objs.
  rewrite <- list_fmap_compose. reflexivity.
Qed.

(** C2, the code against the claim.  For a tree built from [N] whole
    points and a query without radius that asks for [k > N] neighbours,
    the search keeps all [N] candidates but the extraction loop reads
    [bestNodes.content[N][0]] past the end of the heap: the call raises a
    [TypeError] instead of returning [N] results. *)
Theorem more_neighbours_than_points_throws (points point : list Z)
        (N : nat) (k : Z) :
  length points = (N * eleSize)%nat -> Z.of_nat N < k ->
  exists t : KdTree.kdTree,
    KdTree.new_kdTree quickSortIP eleSize points = Ok t /\
    length (inorder (KdTree.root t)) = N /\
    fst (KdTree.nearest metric eleSize point k (KdTree.root t) None)
    = Err TypeError.
Proof.
  intros Hlen Hk.
  destruct (new_kdTree_correct quickSortIP eleSize eleSize_pos sort_length
              sort_correct points N Hlen)
    as (t & Ht & _ & _ & _ & Hpos & _ & _).
  assert (HN : length (inorder (KdTree.root t)) = N).
  { apply (f_equal length) in Hpos.
    now rewrite length_fmap, length_seq in Hpos. }
  exists t. split; [exact Ht|]. split; [exact HN|].
  unfold KdTree.nearest.
  destruct (KdTree.isNull (KdTree.root t)) eqn:Hroot.
  - apply isNull_true in Hroot. rewrite Hroot. reflexivity.
  - apply isNull_false in Hroot.
    destruct (nearestSearch_room metric eleSize point k (KdTree.root t) Hroot
                (KdTree.mkState [] []))
      as (s' & -> & Hperm); [cbn; lia|].
    cbn [fst]. apply collect_short.
    apply Permutation_length in Hperm. rewrite length_app in Hperm.
    unfold entriesOf in Hperm. rewrite length_fmap in Hperm.
    cbn in Hperm. lia.
Qed.

End EndToEnd.

(** * The claims on concrete inputs *)

Example heap_run :
  runOps (fun x => x) [OpPush 5; OpPush 3; OpPush 4; OpPush 1; OpPop] []
  = Ok [3; 5; 4].
Proof. reflexivity. Qed.

Example scenario_buffer_after_build :
  KdTree.buffer <$> (match KdTree.new_kdTree quickSortIP_model 2 scenario with
                     | Ok t => Some t
                     | Err _ => None
                     end)
  = Some [0; 0; 0; 1; 1; 0; 5; 5].
Proof. vm_compute. reflexivity. Qed.

(** The two literal scenarios of the specification. *)
Example scenario_two_nearest_to_origin :
  pairsOf (fst (KdTree.nearest sqDist 2 [0; 0] 2 scenarioTree None))
  = Ok [([0; 1], 1); ([0; 0], 0)].
Proof. vm_compute. reflexivity. Qed.

Example scenario_within_radius_one :
  pairsOf (fst (KdTree.nearest sqDist 2 [5; 5] 1 scenarioTree (Some 1)))
  = Ok [([5; 5], 0)].
Proof. vm_compute. reflexivity. Qed.

Example scenario_bruteForce :
  bruteForce sqDist [0; 0] 2 (pointsOf 2 scenario)
  = [([0; 0], 0); ([1; 0], 1)].
Proof. vm_compute. reflexivity. Qed.

Lemma scenarioTree_built :
  exists t : KdTree.kdTree,
    KdTree.new_kdTree quickSortIP_model 2 scenario = Ok t /\
    KdTree.root t = scenarioTree.
Proof. eexists. split; vm_compute; reflexivity. Qed.

(** C1, the code against the claim.  The scenario has four points; asked
    for the five nearest to the origin, the linear scan returns the four
    points and [nearest] raises a [TypeError]. *)
Theorem scenario_five_nearest_of_four :
  fst (KdTree.nearest sqDist 2 [0; 0] 5 scenarioTree None) = Err TypeError /\
  length (bruteForce sqDist [0; 0] 5 (pointsOf 2 scenario)) = 4%nat.
Proof. split; vm_compute; reflexivity. Qed.

(** The scenario of the specification, query [[0,0]] with [k = 2]: the
    general result applies. *)
Lemma scenario_two_nearest :
  exists (t : KdTree.kdTree) (result left_out : list KdTree.entry)
         (s : KdTree.state),
    KdTree.new_kdTree quickSortIP_model 2 scenario = Ok t /\
    KdTree.nearest sqDist 2 [0; 0] 2 (KdTree.root t) None = (Ok result, s) /\
    length result = 2%nat /\
    result ++ left_out ≡ₚ entriesOf sqDist [0; 0] (KdTree.root t) /\
    snd <$> result
    ≡ₚ snd <$> bruteForce sqDist [0; 0] 2 (pointsOf 2 scenario).
Proof.
  apply (nearest_matches_bruteForce quickSortIP_model sqDist 2)
    with (N := 4%nat).
  - lia.
  - apply quickSortIP_model_length. lia.
  - apply quickSortIP_model_sorts. lia.
  - apply sqDist_nonneg.
  - apply sqDist_perAxisMonotonic. lia.
  - reflexivity.
  - reflexivity.
  - lia.
Defined.

Lemma more_neighbours_than_points_throws_witness :
  exists t : KdTree.kdTree,
    KdTree.new_kdTree quickSortIP_model 2 scenario = Ok t /\
    length (inorder (KdTree.root t)) = 4%nat /\
    fst (KdTree.nearest sqDist 2 [0; 0] 5 (KdTree.root t) None)
    = Err TypeError.
Proof.
  apply (more_neighbours_than_points_throws quickSortIP_model sqDist 2).
  - lia.
  - apply quickSortIP_model_length. lia.
  - apply quickSortIP_model_sorts. lia.
  - reflexivity.
  - lia.
Defined.

Lemma empty_tree_query_throws_witness :
  exists t : KdTree.kdTree,
    KdTree.new_kdTree quickSortIP_model 2 [] = Ok t /\
    KdTree.root t = KdTree.Null /\
    fst (KdTree.nearest sqDist 2 [0; 0] 1 (KdTree.root t) None)
    = Err TypeError.
Proof. apply empty_tree_query_throws. lia. Defined.

Lemma built_tree_is_ordered_witness :
  exists t : KdTree.kdTree,
    KdTree.new_kdTree quickSortIP_model 2 scenario = Ok t /\
    ordered 2 (KdTree.root t) /\
    depthsFrom 0 (KdTree.root t) /\
    objs (KdTree.root t) ≡ₚ pointsOf 2 scenario.
Proof.
  apply built_tree_is_ordered.
  - lia.
  - apply quickSortIP_model_length. lia.
  - apply quickSortIP_model_sorts. lia.
  - reflexivity.
Defined.



(** C6 as stated fails: with [k = 0] on the scenario the failure comes
    after nodes were visited. *)
Lemma small_k_not_rejected_before_traversal :
  ~ rejectedBeforeTraversal
      (KdTree.nearest sqDist 2 [0; 0] 0 scenarioTree None).
Proof. intros (e & _ & Hvis & _). vm_compute in Hvis. discriminate Hvis. Qed.

(** With [k = 0] and query [[0,0]] the scenario is entered at the root
    [[1,0]], goes on to [[0,1]] and fails at the leaf [[0,0]]. *)
Example scenario_descent_without_capacity :
  objOf <$> descent 2 [0; 0] scenarioTree = [[1; 0]; [0; 1]; [0; 0]] /\
  KdTree.nearest sqDist 2 [0; 0] 0 scenarioTree None
  = (Err TypeError, KdTree.mkState [] [0; 1; 2]%nat).
Proof. split; vm_compute; reflexivity. Qed.

Lemma small_k_fails_inside_traversal_witness :
  KdTree.nearest sqDist 2 [0; 0] 0 scenarioTree None
  = (Err TypeError,
     KdTree.mkState [] (reverse (posOf <$> descent 2 [0; 0] scenarioTree))) /\
  head (descent 2 [0; 0] scenarioTree) = Some scenarioTree /\
  (exists (above : list KdTree.tree) (leaf : KdTree.tree),
      descent 2 [0; 0] scenarioTree = above ++ [leaf] /\
      isLeaf leaf = true /\
      Forall (fun n => isLeaf n = false) above) /\
  (forall (node : KdTree.tree) (d : Z) (s : KdTree.state),
      KdTree.bestNodes s = [] ->
      KdTree.consider 0 node d s = KdTree.Throw TypeError s).
Proof.
  apply small_k_fails_inside_traversal.
  - lia.
  - discriminate.
Defined.

(** C7 as stated fails at [d = 0]: asked for the nearest point to
    [[4,4]] within radius [0], [nearest] returns [[5,5]] at distance 2. *)
Lemma zero_radius_not_enforced :
  ~ withinRadius 0 (KdTree.nearest sqDist 2 [4; 4] 1 scenarioTree (Some 0)).
Proof.
  intros H. vm_compute in H. specialize (H _ eq_refl).
  apply Forall_cons in H as [H _]. apply H. reflexivity.
Qed.

Lemma radius_bounds_results_witness :
  withinRadius 1 (KdTree.nearest sqDist 2 [5; 5] 1 scenarioTree (Some 1)) /\
  (scenarioTree <> KdTree.Null -> 1 <= 1 ->
   exists (result : list KdTree.entry) (s : KdTree.state),
     KdTree.nearest sqDist 2 [5; 5] 1 scenarioTree (Some 1) = (Ok result, s)).
Proof. apply radius_bounds_results. lia. Defined.

(** C9 as stated fails: built from [[5,5],[0,0]], the root holds
    [[5,5]] with index 1, where the buffer given to the builder holds
    [[0,0]]. *)
Lemma pos_does_not_index_given_buffer :
  exists t : KdTree.kdTree,
    KdTree.new_kdTree quickSortIP_model 2 [5; 5; 0; 0] = Ok t /\
    ~ indexesBuffer 2 [5; 5; 0; 0] (KdTree.root t).
Proof.
  eexists. split; [vm_compute; reflexivity|].
  intros H.
  specialize (H (KdTree.Node [0; 0] KdTree.Null KdTree.Null (Some 1%nat) 1 0)).
  assert (Hin : KdTree.Node [0; 0] KdTree.Null KdTree.Null (Some 1%nat) 1 0
                ∈ inorder
                    (KdTree.Node [5; 5]
                       (KdTree.Node [0; 0] KdTree.Null KdTree.Null
                          (Some 1%nat) 1 0)
                       KdTree.Null None 0 1))
    by apply list_elem_of_here.
  specialize (H Hin). vm_compute in H. discriminate H.
Qed.

Lemma pos_indexes_reordered_buffer_witness :
  exists t : KdTree.kdTree,
    KdTree.new_kdTree quickSortIP_model 2 [5; 5; 0; 0] = Ok t /\
    pointsOf 2 (KdTree.buffer t) ≡ₚ pointsOf 2 [5; 5; 0; 0] /\
    indexesBuffer 2 (KdTree.buffer t) (KdTree.root t).
Proof.
  apply pos_indexes_reordered_buffer.
  - lia.
  - apply quickSortIP_model_length. lia.
  - apply quickSortIP_model_sorts. lia.
  - reflexivity.
Defined.

Lemma falsy_radius_is_no_radius_witness :
  KdTree.nearest sqDist 2 [4; 4] 1 scenarioTree (Some 0)
  = KdTree.nearest sqDist 2 [4; 4] 1 scenarioTree None.
Proof. apply falsy_radius_is_no_radius. reflexivity. Defined.

(** * Further properties of the code *)

(** ** The heap: push, pop, emptying, remove *)

Lemma insert_perm_cons {A : Type} (l : list A) :
  forall (j : nat) (y a : A),
    l !! j = Some y -> y :: <[j:=a]> l ≡ₚ a :: l.
Proof.
  induction l as [|x l IH]; intros [|j] y a Hj; try discriminate.
  - cbn in Hj. injection Hj as ->. apply perm_swap.
  - cbn in Hj. cbn [insert list_insert].
    change (y :: x :: <[j:=a]> l ≡ₚ a :: x :: l).
    rewrite perm_swap, (IH j y a Hj). apply perm_swap.
Qed.

Section HeapExtras.

Local Open Scope nat_scope.

Context {A : Type}.
Variable score : A -> Z.

Lemma heapProperty_prefix (l : list A) (e : A) :
  heapProperty score (l ++ [e]) -> heapProperty score l.
Proof.
  intros H n m x y Hx Hy Hm.
  apply (H n m x y); auto; apply lookup_app_l_Some; auto.
Qed.

(** [push] never fails: the new content holds the old entries and the
    new one, one more than before, and an ordered heap stays ordered. *)
Theorem push_adds_element (c : list A) (e : A) :
  exists c' : list A,
    BinaryHeap.push score c e = Ok c' /\
    c' ≡ₚ e :: c /\
    BinaryHeap.size c' = S (BinaryHeap.size c) /\
    (heapProperty score c -> heapProperty score c').
Proof.
  destruct (push_correct score c e) as (c' & Hrun & Hperm & Hheap).
  exists c'. repeat split; auto.
  unfold BinaryHeap.size. now rewrite Hperm.
Qed.

(** [pop] never fails.  On the empty heap it returns [undefined] and
    leaves the heap empty; otherwise it returns the entry at the root and
    keeps the other entries, and on an ordered heap the entry returned
    has the least score and the heap stays ordered. *)
Theorem pop_removes_root :
  BinaryHeap.pop score (@nil A) = Ok (None, []) /\
  forall (x : A) (rest : list A),
    exists c' : list A,
      BinaryHeap.pop score (x :: rest) = Ok (Some x, c') /\
      c' ≡ₚ rest /\
      (heapProperty score (x :: rest) ->
       heapProperty score c' /\
       forall y : A, y ∈ x :: rest -> (score x <= score y)%Z).
Proof.
  split; [reflexivity|]. intros x rest.
  destruct (pop_correct score x rest) as (c' & Hrun & Hperm & Hheap).
  exists c'. repeat split; auto.
  intros y Hy. apply list_elem_of_lookup in Hy as (i & Hi).
  apply heapProperty_parent in H.
  exact (parentProperty_root_min score _ x H eq_refl i y Hi).
Qed.

Lemma popAll_correct (n : nat) :
  forall c : list A,
    length c = n -> heapProperty score c ->
    exists out : list A,
      popAll score n c = Ok out /\
      out ≡ₚ c /\
      StronglySorted Z.le (score <$> out).
Proof.
  induction n as [|n IH]; intros c Hlen Hheap.
  - apply length_zero_iff_nil in Hlen. subst c.
    exists []. repeat split; auto. constructor.
  - destruct c as [|x rest]; [discriminate|].
    destruct (pop_correct score x rest) as (c' & Hrun & Hperm & Hh).
    pose proof (Hh Hheap) as Hheap'.
    assert (Hmin : forall y : A, y ∈ x :: rest -> (score x <= score y)%Z).
    { intros y Hy. apply list_elem_of_lookup in Hy as (i & Hi).
      apply heapProperty_parent in Hheap.
      exact (parentProperty_root_min score _ x Hheap eq_refl i y Hi). }
    cbn [popAll]. rewrite Hrun. cbn [rbind fst snd].
    destruct (IH c') as (out & -> & Hout & Hsorted); auto.
    { rewrite Hperm. cbn in Hlen. lia. }
    cbn [rbind]. exists (x :: out). split; [reflexivity|]. split.
    + now rewrite Hout, Hperm.
    + cbn. constructor; [exact Hsorted|].
      apply Forall_fmap, Forall_forall. intros y Hy. cbn.
      apply Hmin. apply list_elem_of_further. now rewrite <- Hperm, <- Hout.
Qed.

(** Emptying an ordered heap with [pop] yields all its entries, in
    ascending order of score. *)
Theorem pops_come_out_ascending (c : list A) :
  heapProperty score c ->
  exists out : list A,
    popAll score (BinaryHeap.size c) c = Ok out /\
    out ≡ₚ c /\
    StronglySorted Z.le (score <$> out).
Proof. intros H. now apply popAll_correct. Qed.

(** *** remove *)

Variable same : A -> A -> bool.


Hypothesis same_eq : forall x y : A, same x y = true <-> x = y.

Lemma remove_scan_found (c : list A) (node : A) (len count : nat) :
  forall i : nat,
    i + count = length c ->
    (exists j, i <= j /\ c !! j = Some node) ->
    exists j, c !! j = Some node /\
              BinaryHeap.remove_scan score same len node c count i
              = BinaryHeap.remove_at score len node c j.
Proof.
  induction count as [|count IH]; intros i Hi (j & Hij & Hj).
  - apply lookup_lt_Some in Hj. lia.
  - cbn [BinaryHeap.remove_scan].
    destruct (c !! i) as [x|] eqn:E; [|apply lookup_ge_None in E; lia].
    destruct (same x node) eqn:Hs.
    + apply same_eq in Hs. subst x. eauto.
    + apply IH; [lia|]. exists j. split; [|exact Hj].
      destruct (decide (j = i)) as [->|]; [|lia].
      rewrite E in Hj. injection Hj as ->.
      assert (same node node = true) by now apply same_eq. congruence.
Qed.

Lemma remove_at_correct (c : list A) (node : A) (j : nat) :
  c !! j = Some node ->
  exists c' : list A,
    BinaryHeap.remove_at score (length c) node c j = BinaryHeap.Removed c' /\
    node :: c' ≡ₚ c /\
    (heapProperty score c -> heapProperty score c').
Proof.
  intros Hj. pose proof (lookup_lt_Some _ _ _ Hj) as Hlt.
  destruct (exists_last (l:=c)) as (l & e & ->);
    [intros ->; cbn in Hlt; lia|].
  unfold BinaryHeap.remove_at.
  rewrite last_snoc, removelast_last, length_app in *. cbn [length] in *.
  replace (length l + 1 - 1) with (length l) by lia.
  destruct (j =? length l) eqn:Ej; cbn [negb].
  - apply Nat.eqb_eq in Ej. subst j.
    rewrite lookup_app_r, Nat.sub_diag in Hj by lia. injection Hj as ->.
    exists l. split; [reflexivity|]. split.
    + apply Permutation_cons_append.
    + apply heapProperty_prefix.
  - apply Nat.eqb_neq in Ej. assert (Hjl : j < length l) by lia.
    rewrite lookup_app_l in Hj by auto.
    set (c1 := <[j:=e]> l).
    assert (Hc1 : c1 !! j = Some e) by now apply list_lookup_insert_eq.
    assert (Hother : forall m, m <> j -> c1 !! m = l !! m)
      by (intros m Hm; apply list_lookup_insert_ne; auto).
    assert (Hperm1 : node :: c1 ≡ₚ l ++ [e]).
    { unfold c1. rewrite (insert_perm_cons l j node e Hj).
      apply Permutation_cons_append. }
    destruct (score e <? score node)%Z eqn:Ecmp.
    + apply Z.ltb_lt in Ecmp. unfold BinaryHeap.bubbleUp. rewrite Hc1.
      destruct (bubbleUp_loop_correct score j j c1 e) as (c' & -> & Hp & Hinv);
        auto.
      exists c'. split; [reflexivity|]. split; [now rewrite Hp|].
      intros Hheap. apply heapProperty_prefix, heapProperty_parent in Hheap.
      apply heapProperty_parent, Hinv. split.
      * intros m x y Hm Hne Hy Hx. rewrite Hother in Hy by auto.
        destruct (decide (BinaryHeap.parentIndex m = j)) as [Hpm|Hpm].
        -- rewrite Hpm, Hc1 in Hx. injection Hx as <-.
           assert (score node <= score y)%Z
             by (apply (Hheap m node y); auto; now rewrite Hpm).
           lia.
        -- rewrite Hother in Hx by auto. apply (Hheap m x y); auto.
      * intros m x y Hj0 Hm Hpm Hy Hx.
        pose proof (parentIndex_lt j Hj0). pose proof (parentIndex_lt m Hm).
        rewrite Hother in Hy by lia. rewrite Hother in Hx by lia.
        assert (score x <= score node)%Z by (apply (Hheap j x node); auto).
        assert (score node <= score y)%Z
          by (apply (Hheap m node y); auto; now rewrite Hpm).
        lia.
    + apply Z.ltb_ge in Ecmp.
      destruct (sinkDown_correct score c1 j e Hc1) as (c' & -> & Hp & Hinv).
      exists c'. split; [reflexivity|]. split; [now rewrite Hp|].
      intros Hheap. apply heapProperty_prefix, heapProperty_parent in Hheap.
      apply heapProperty_parent, Hinv. split.
      * intros m x y Hm Hpm Hy Hx. rewrite Hother in Hx by auto.
        destruct (decide (m = j)) as [->|Hmj].
        -- rewrite Hc1 in Hy. injection Hy as <-.
           assert (score x <= score node)%Z by (apply (Hheap j x node); auto).
           lia.
        -- rewrite Hother in Hy by auto. apply (Hheap m x y); auto.
      * intros m x y Hj0 Hm Hpm Hy Hx.
        pose proof (parentIndex_lt j Hj0). pose proof (parentIndex_lt m Hm).
        rewrite Hother in Hy by lia. rewrite Hother in Hx by lia.
        assert (score x <= score node)%Z by (apply (Hheap j x node); auto).
        assert (score node <= score y)%Z
          by (apply (Hheap m node y); auto; now rewrite Hpm).
        lia.
Qed.

(** [remove] of a payload the heap holds takes out one entry equal to
    it and keeps all the others; an ordered heap stays ordered. *)
Theorem remove_present_takes_one (c : list A) (node : A) :
  node ∈ c ->
  exists c' : list A,
    BinaryHeap.remove score same c node = BinaryHeap.Removed c' /\
    node :: c' ≡ₚ c /\
    (heapProperty score c -> heapProperty score c').
Proof.
  intros Hin. apply list_elem_of_lookup in Hin as (j & Hj).
  unfold BinaryHeap.remove.
  destruct (remove_scan_found c node (length c) (length c) 0)
    as (j' & Hj' & ->); [lia|exists j; split; [lia|exact Hj]|].
  now apply remove_at_correct.
Qed.

End HeapExtras.

(** ** The builder: shape, counters, numbering *)

Lemma log2_half (n : nat) :
  (2 <= n)%nat -> Nat.log2 n = S (Nat.log2 (n / 2)).
Proof.
  intros Hn.
  assert (Hcases : n = (2 * (n / 2))%nat \/ n = (2 * (n / 2) + 1)%nat) by lia.
  assert (Hpos : (0 < n / 2)%nat) by lia.
  destruct Hcases as [H|H]; rewrite H at 1.
  - now apply Nat.log2_double.
  - now apply Nat.log2_succ_double.
Qed.

Section ShapeFacts.

Local Open Scope nat_scope.

Variable quickSortIP : list Z -> nat -> nat -> list Z.
Variable eleSize : nat.
Hypothesis eleSize_pos : 0 < eleSize.
Hypothesis sort_length : keepsLength eleSize quickSortIP.

(** The shape of the tree and the counters depend on the number of
    points only, not on how the sort orders them. *)
Lemma buildTree_shape (fuel : nat) :
  forall (points : list Z) (depth : nat) (parent : option nat) (pos : nat)
         (st : KdTree.stats) (n : nat),
    length points = n * eleSize -> length points < fuel ->
    exists t win st',
      KdTree.buildTree quickSortIP eleSize fuel points depth parent pos st
      = Ok (t, win, st') /\
      length win = length points /\
      objs t = pointsOf eleSize win /\
      posOf <$> inorder t = seq pos n /\
      KdTree.maxDepth st' = KdTree.maxDepth st `max` (depth + Nat.log2 n) /\
      KdTree.amountOfLeafDepthNodes st'
      = KdTree.amountOfLeafDepthNodes st + countLeaves t /\
      Forall (fun node => depth <= depthOf node <= depth + Nat.log2 n)
             (inorder t) /\
      parentsFrom parent t.
Proof.
  induction fuel as [|fuel IH];
    intros points depth parent pos st n Hn Hfuel; [lia|].
  cbn [KdTree.buildTree].
  set (st1 := if KdTree.maxDepth st <? depth then _ else st).
  assert (Hst1 : KdTree.maxDepth st1 = KdTree.maxDepth st `max` depth /\
                 KdTree.amountOfLeafDepthNodes st1
                 = KdTree.amountOfLeafDepthNodes st).
  { subst st1. destruct (KdTree.maxDepth st <? depth) eqn:E; cbn.
    - apply Nat.ltb_lt in E. lia.
    - apply Nat.ltb_ge in E. lia. }
  destruct Hst1 as [Hmax1 Hamt1].
  destruct (length points =? 0) eqn:E0.
  { apply Nat.eqb_eq in E0. assert (n = 0) by nia. subst n.
    apply length_zero_iff_nil in E0. subst points.
    do 3 eexists. split; [reflexivity|].
    rewrite pointsOf_nil. cbn [inorder countLeaves parentsFrom].
    repeat split; auto; cbn; try lia; try constructor. }
  destruct (length points =? eleSize) eqn:E1.
  { apply Nat.eqb_eq in E1. assert (n = 1) by nia. subst n.
    do 3 eexists. split; [reflexivity|].
    rewrite pointsOf_single by auto.
    rewrite getPointSet_eq by auto. cbn [Nat.mul]. rewrite drop_0.
    rewrite take_ge by lia. cbn.
    repeat split; auto; try lia;
      try (repeat constructor; cbn; lia). }
  apply Nat.eqb_neq in E0. apply Nat.eqb_neq in E1.
  assert (Hn2 : 2 <= n) by (destruct n as [|[|n']]; cbn in Hn; lia).
  set (dim := depth mod eleSize).
  set (sorted := quickSortIP points eleSize dim).
  assert (Hs : length sorted = length points) by apply sort_length.
  rewrite Hn, median_eq by auto. set (m := n / 2).
  assert (Hm : m < n) by (subst m; lia).
  assert (Hm1 : 1 <= m) by (subst m; lia).
  assert (Hlog : Nat.log2 n = S (Nat.log2 m)) by now apply log2_half.
  assert (Hlogr : Nat.log2 (n - m - 1) <= Nat.log2 m)
    by (apply Nat.log2_le_mono; subst m; lia).
  rewrite <- Hn, <- Hs.
  destruct (window_split eleSize) with (buf := sorted) (n := n) (m := m)
    as (Hsplit & HA & HM & HB); [auto|lia|auto|].
  set (A := KdTree.subarray sorted 0 (m * eleSize)) in *.
  set (M := KdTree.getPointSet eleSize sorted m) in *.
  set (B := KdTree.subarray sorted ((m + 1) * eleSize) (length sorted)) in *.
  destruct (IH A (depth + 1) (Some (m + pos)) pos st1 m)
    as (tl & wl & sl & -> & Hwl & Hol & Hposl & Hmaxl & Hamtl & Hdl & Hpl);
    [auto|nia|].
  cbn [rbind].
  destruct (IH B (depth + 1) (Some (m + pos)) (pos + m + 1) sl (n - m - 1))
    as (tr & wr & sr & -> & Hwr & Hor & Hposr & Hmaxr & Hamtr & Hdr & Hpr);
    [auto|nia|].
  cbn [rbind].
  do 3 eexists. split; [reflexivity|].
  assert (HW : pointsOf eleSize (wl ++ M ++ wr)
               = pointsOf eleSize wl ++ M :: pointsOf eleSize wr).
  { rewrite pointsOf_app with (k := m) by (auto; lia).
    rewrite pointsOf_app with (k := 1) by (auto; lia).
    rewrite pointsOf_single with (p := M) by auto. reflexivity. }
  assert (Hnl : KdTree.isNull tl = false).
  { destruct tl; [|reflexivity].
    apply (f_equal length) in Hposl.
    rewrite length_fmap, length_seq in Hposl.
    cbn [inorder length] in Hposl. lia. }
  split.
  { rewrite !length_app, Hwl, Hwr, Hs, <- Hs, Hsplit at 1.
    rewrite !length_app. lia. }
  split.
  { unfold objs in *. cbn [inorder]. rewrite fmap_app, fmap_cons.
    cbn [objOf]. rewrite HW. congruence. }
  split.
  { cbn [inorder]. rewrite fmap_app, fmap_cons. cbn [posOf].
    rewrite Hposl, Hposr.
    assert (Hseq : seq pos n
                   = seq pos m ++ (m + pos) :: seq (pos + m + 1) (n - m - 1)).
    { replace n with (m + S (n - m - 1)) at 1 by lia.
      rewrite seq_app. cbn [seq]. do 2 f_equal; [lia|f_equal; lia]. }
    now rewrite Hseq. }
  split; [lia|].
  split.
  { cbn [countLeaves]. rewrite Hnl. cbn [andb]. lia. }
  split.
  { cbn [inorder]. apply Forall_app. split; [|constructor].
    - eapply Forall_impl; [exact Hdl|]. cbn beta. intros x Hx. lia.
    - cbn [depthOf]. lia.
    - eapply Forall_impl; [exact Hdr|]. cbn beta. intros x Hx. lia. }
  cbn [parentsFrom]. auto.
Qed.

Lemma new_kdTree_shape (points : list Z) (N : nat) :
  length points = N * eleSize ->
  exists t : KdTree.kdTree,
    KdTree.new_kdTree quickSortIP eleSize points = Ok t /\
    length (KdTree.buffer t) = length points /\
    objs (KdTree.root t) = pointsOf eleSize (KdTree.buffer t) /\
    posOf <$> inorder (KdTree.root t) = seq 0 N /\
    KdTree.getMaxDepth t = Nat.log2 N /\
    KdTree.getAmountOfLeafDepthNodes t = countLeaves (KdTree.root t) /\
    Forall (fun node => depthOf node <= Nat.log2 N)
           (inorder (KdTree.root t)) /\
    parentsFrom None (KdTree.root t).
Proof.
  intros HN. unfold KdTree.new_kdTree.
  destruct (buildTree_shape (S (length points)) points 0 None 0
              (KdTree.mkStats 0 0) N HN)
    as (t & win & st & -> & Hw & Ho & Hp & Hmax & Hamt & Hd & Hpar); [lia|].
  cbn [rbind]. eexists. split; [reflexivity|].
  cbn [KdTree.root KdTree.buffer KdTree.getMaxDepth
       KdTree.getAmountOfLeafDepthNodes KdTree.maxDepth
       KdTree.amountOfLeafDepthNodes] in *.
  repeat split; auto; try lia.
  eapply Forall_impl; [exact Hd|]. cbn beta. intros x Hx. lia.
Qed.

(** The tree over [N] whole points is balanced whatever the sort does:
    [getMaxDepth()] is [floor(log2 N)] and no node lies deeper. *)
Theorem max_depth_is_log2 (points : list Z) (N : nat) :
  length points = N * eleSize ->
  exists t : KdTree.kdTree,
    KdTree.new_kdTree quickSortIP eleSize points = Ok t /\
    KdTree.getMaxDepth t = Nat.log2 N /\
    forall node : KdTree.tree,
      node ∈ inorder (KdTree.root t) -> depthOf node <= Nat.log2 N.
Proof.
  intros HN.
  destruct (new_kdTree_shape points N HN)
    as (t & Ht & _ & _ & _ & Hmax & _ & Hd & _).
  exists t. split; [exact Ht|]. split; [exact Hmax|].
  now apply Forall_forall.
Qed.

(** [getAmountOfLeafDepthNodes()] is the number of nodes without
    children, for every buffer of whole points. *)
Theorem leaf_counter_counts_childless_nodes (points : list Z) :
  length points mod eleSize = 0 ->
  exists t : KdTree.kdTree,
    KdTree.new_kdTree quickSortIP eleSize points = Ok t /\
    KdTree.getAmountOfLeafDepthNodes t = countLeaves (KdTree.root t).
Proof.
  intros Hwf.
  destruct (new_kdTree_shape points (length points / eleSize))
    as (t & Ht & _ & _ & _ & _ & Hamt & _).
  { apply Nat.Div0.div_exact in Hwf. lia. }
  eauto.
Qed.

(** Read from left to right, the nodes of the tree list the points of the
    buffer as the build leaves it, in buffer order, and carry the indices
    [0, 1, ..., N-1]: there is one node per point and no index twice. *)
Theorem inorder_reads_buffer (points : list Z) (N : nat) :
  length points = N * eleSize ->
  exists t : KdTree.kdTree,
    KdTree.new_kdTree quickSortIP eleSize points = Ok t /\
    length (KdTree.buffer t) = length points /\
    objs (KdTree.root t) = pointsOf eleSize (KdTree.buffer t) /\
    posOf <$> inorder (KdTree.root t) = seq 0 N.
Proof.
  intros HN.
  destruct (new_kdTree_shape points N HN)
    as (t & Ht & Hlen & Ho & Hp & _).
  eauto.
Qed.

(** The back references are consistent: the root has no parent and every
    other node names, by its index, the node it hangs from. *)
Theorem parent_links_name_the_parent (points : list Z) :
  length points mod eleSize = 0 ->
  exists t : KdTree.kdTree,
    KdTree.new_kdTree quickSortIP eleSize points = Ok t /\
    parentsFrom None (KdTree.root t).
Proof.
  intros Hwf.
  destruct (new_kdTree_shape points (length points / eleSize))
    as (t & Ht & _ & _ & _ & _ & _ & _ & Hpar).
  { apply Nat.Div0.div_exact in Hwf. lia. }
  eauto.
Qed.

End ShapeFacts.

(** ** The search: what a query returns and what it visits *)

Lemma filter_agree {X : Type} (P1 P2 : X -> Prop)
      `{!forall x, Decision (P1 x)} `{!forall x, Decision (P2 x)}
      (l : list X) :
  Forall (fun x => P1 x <-> P2 x) l -> filter P1 l = filter P2 l.
Proof.
  induction 1 as [|x l Hx _ IH]; [reflexivity|].
  rewrite !filter_cons, IH.
  destruct (decide (P1 x)), (decide (P2 x)); try reflexivity; tauto.
Qed.

Lemma filter_none {X : Type} (P : X -> Prop) `{!forall x, Decision (P x)}
      (l : list X) :
  Forall (fun x => ~ P x) l -> filter P l = [].
Proof.
  induction 1 as [|x l Hx _ IH]; [reflexivity|].
  now rewrite filter_cons_False.
Qed.

Lemma filter_short {X : Type} (P : X -> Prop) `{!forall x, Decision (P x)}
      (l : list X) :
  (length (filter P l) < length l)%nat -> exists x, x ∈ l /\ ~ P x.
Proof.
  induction l as [|x l IH]; cbn [length]; [lia|].
  rewrite filter_cons. destruct (decide (P x)) as [Hx|Hx]; cbn [length].
  - intros Hlt. destruct IH as (y & Hy & HP); [lia|].
    exists y. split; [now apply list_elem_of_further|exact HP].
  - intros _. exists x. split; [apply list_elem_of_here|exact Hx].
Qed.

Lemma filter_below_snd {X : Type} (d : Z) (l : list (X * Z)) :
  filter (fun z => z < d) (snd <$> l)
  = snd <$> filter (fun x => snd x < d) l.
Proof.
  induction l as [|x l IH]; [reflexivity|].
  rewrite fmap_cons, !filter_cons, IH. cbn beta.
  destruct (decide (snd x < d)); reflexivity.
Qed.

(** The extraction loop on a heap of at least [count] entries past [i]
    appends the entries that are not placeholders, in heap order. *)
Lemma collect_filter (count : nat) :
  forall (i : nat) (bn result : list KdTree.entry),
    (i + count <= length bn)%nat ->
    KdTree.collect count i bn result
    = Ok (result ++ filter (fun x => KdTree.isNull (fst x) = false)
                           (take count (drop i bn))).
Proof.
  induction count as [|count IH]; intros i bn result H.
  - cbn. now rewrite app_nil_r.
  - cbn [KdTree.collect].
    destruct (bn !! i) as [[n d]|] eqn:E;
      [|apply lookup_ge_None in E; lia].
    rewrite IH by lia. rewrite (drop_S _ _ _ E). cbn [take].
    rewrite filter_cons. cbn [fst].
    destruct (KdTree.isNull n) eqn:Hn.
    + destruct (decide (true = false)); [discriminate|reflexivity].
    + destruct (decide (false = false)); [|congruence].
      now rewrite <- app_assoc.
Qed.

Lemma preseed_ordered (d : Z) (count : nat) :
  forall bn : list KdTree.entry,
    heapProperty KdTree.negDistance bn ->
    exists bn', KdTree.preseed count d bn = Ok bn' /\
                bn' ≡ₚ replicate count (KdTree.Null, d) ++ bn /\
                heapProperty KdTree.negDistance bn'.
Proof.
  induction count as [|count IH]; intros bn Hheap.
  - exists bn. auto.
  - cbn [KdTree.preseed].
    destruct (push_correct KdTree.negDistance bn (KdTree.Null, d))
      as (c1 & -> & Hperm & Hh).
    cbn [rbind]. destruct (IH c1 (Hh Hheap)) as (bn' & -> & Hperm' & Hheap').
    exists bn'. split; [reflexivity|]. split; [|exact Hheap'].
    rewrite Hperm', Hperm. cbn. now rewrite <- Permutation_middle.
Qed.

Lemma visits_glue (pb rb po ro B O : list nat) (p : nat) :
  pb ++ rb ≡ₚ B -> po ++ ro ≡ₚ O ->
  (po ++ pb ++ [p]) ++ rb ++ ro ≡ₚ p :: B ++ O.
Proof.
  intros <- <-.
  transitivity (p :: (po ++ pb) ++ (rb ++ ro)).
  { replace ((po ++ pb ++ [p]) ++ rb ++ ro)
      with ((po ++ pb) ++ p :: (rb ++ ro))
      by (now rewrite <- !app_assoc).
    symmetry. apply Permutation_middle. }
  apply perm_skip. rewrite (Permutation_app_comm po pb), <- !app_assoc.
  apply Permutation_app_head. rewrite !app_assoc.
  apply Permutation_app_tail, Permutation_app_comm.
Qed.

Section Candidates.

Variable maxNodes : Z.
Variable Q : KdTree.entry -> Prop.

Lemma saveNode_Forall (node : KdTree.tree) (d : Z)
      (bn bn' : list KdTree.entry) :
  KdTree.saveNode maxNodes node d bn = Ok bn' ->
  Q (node, d) -> Forall Q bn -> Forall Q bn'.
Proof.
  unfold KdTree.saveNode. intros Hrun Hnode Hall.
  destruct (push_correct KdTree.negDistance bn (node, d))
    as (c1 & Hpush & Hperm & _).
  rewrite Hpush in Hrun. cbn [rbind] in Hrun.
  assert (Hc1 : Forall Q c1) by (rewrite Hperm; now constructor).
  destruct (maxNodes <? _) in Hrun; [|now injection Hrun as <-].
  destruct c1 as [|top rest].
  - apply Permutation_length in Hperm. discriminate.
  - destruct (pop_correct KdTree.negDistance top rest)
      as (c2 & Hpop & Hperm2 & _).
    rewrite Hpop in Hrun. cbn in Hrun. injection Hrun as <-.
    rewrite Hperm2. now apply Forall_cons in Hc1 as [_ ?].
Qed.

(** The admission rule puts nothing but the candidate on the heap and
    evaluates no distance. *)
Lemma consider_Forall (node : KdTree.tree) (d : Z) (s : KdTree.state) :
  Q (node, d) -> Forall Q (KdTree.bestNodes s) ->
  Forall Q (KdTree.bestNodes (stateOf (KdTree.consider maxNodes node d s))) /\
  KdTree.visited (stateOf (KdTree.consider maxNodes node d s))
  = KdTree.visited s.
Proof.
  intros Hnode Hall. unfold KdTree.consider.
  destruct (KdTree.hasRoomOrBeats _ _ _) as [[|]|e]; cbn [stateOf]; auto.
  destruct (KdTree.saveNode _ _ _ _) as [bn'|e] eqn:E;
    cbn [stateOf KdTree.bestNodes KdTree.visited]; auto.
  split; [|reflexivity]. eapply saveNode_Forall; eauto.
Qed.

(** On a full heap, the admission rule keeps any property of the entries
    that a candidate nearer than an entry having it has too. *)
Lemma consider_full_keeps (node : KdTree.tree) (d : Z) (s : KdTree.state) :
  1 <= maxNodes ->
  length (KdTree.bestNodes s) = Z.to_nat maxNodes ->
  Forall Q (KdTree.bestNodes s) ->
  (forall top : KdTree.entry, Q top -> d < snd top -> Q (node, d)) ->
  exists bn',
    KdTree.consider maxNodes node d s
    = KdTree.Done (KdTree.mkState bn' (KdTree.visited s)) /\
    length bn' = Z.to_nat maxNodes /\ Forall Q bn'.
Proof.
  destruct s as [bn vis]. cbn [KdTree.bestNodes KdTree.visited].
  intros Hk Hlen Hall HQ. unfold KdTree.consider.
  cbn [KdTree.bestNodes KdTree.visited].
  destruct bn as [|top rest]; [cbn in Hlen; lia|].
  rewrite hasRoomOrBeats_full by lia.
  destruct (d <? snd top) eqn:E.
  - apply Z.ltb_lt in E.
    destruct (saveNode_full maxNodes node d (top :: rest))
      as (bn' & top' & -> & Hperm & _); [lia|auto|].
    exists bn'. split; [reflexivity|].
    apply Permutation_length in Hperm as Hlen'. cbn [length] in Hlen', Hlen.
    split; [lia|].
    assert (Hall' : Forall Q (top' :: bn')).
    { rewrite Hperm. constructor; [|exact Hall].
      apply Forall_cons in Hall as [Htop _]. now apply (HQ top). }
    now apply Forall_cons in Hall' as [_ Hall'].
  - exists (top :: rest). auto.
Qed.

End Candidates.

Section Traversal.

Variable metric : list Z -> list Z -> Z.
Variable eleSize : nat.
Variable point : list Z.
Variable maxNodes : Z.

(** Whatever the outcome, the search puts nothing on the heap but nodes
    of the subtree, each with its distance to the query point. *)
Lemma nearestSearch_candidates (Q : KdTree.entry -> Prop) (t : KdTree.tree) :
  (forall x, x ∈ entriesOf metric point t -> Q x) ->
  forall s : KdTree.state,
    Forall Q (KdTree.bestNodes s) ->
    Forall Q (KdTree.bestNodes
                (stateOf (KdTree.nearestSearch metric eleSize point maxNodes
                            t s))).
Proof.
  induction t as [|o l IHl r IHr par d p]; intros Hent s Hall; [exact Hall|].
  rewrite entriesOf_node in Hent.
  assert (Hnode : Q (KdTree.Node o l r par d p, metric point o))
    by (apply Hent, elem_of_app; right; apply list_elem_of_here).
  assert (Hl : forall s : KdTree.state,
             Forall Q (KdTree.bestNodes s) ->
             Forall Q (KdTree.bestNodes
                         (stateOf (KdTree.nearestSearch metric eleSize point
                                     maxNodes l s)))).
  { apply IHl. intros x Hx. apply Hent, elem_of_app. auto. }
  assert (Hr : forall s : KdTree.state,
             Forall Q (KdTree.bestNodes s) ->
             Forall Q (KdTree.bestNodes
                         (stateOf (KdTree.nearestSearch metric eleSize point
                                     maxNodes r s)))).
  { apply IHr. intros x Hx. apply Hent, elem_of_app. right.
    now apply list_elem_of_further. }
  clear IHl IHr Hent. cbn [KdTree.nearestSearch].
  set (node := KdTree.Node o l r par d p) in *.
  set (s0 := KdTree.mkState (KdTree.bestNodes s) (p :: KdTree.visited s)).
  destruct (KdTree.isNull r && KdTree.isNull l).
  { now apply consider_Forall. }
  set (bestIsLeft := if KdTree.isNull r then true
                     else if KdTree.isNull l then false
                          else KdTree.coord point (d mod eleSize)
                               <? KdTree.coord o (d mod eleSize)).
  assert (Hb : Forall Q (KdTree.bestNodes
                           (stateOf (KdTree.nearestSearch metric eleSize point
                                       maxNodes
                                       (if bestIsLeft then l else r) s0))))
    by (destruct bestIsLeft; [apply Hl|apply Hr]; exact Hall).
  destruct (KdTree.nearestSearch metric eleSize point maxNodes
              (if bestIsLeft then l else r) s0) as [s1|e s1];
    cbn [stateOf] in Hb |- *; [|exact Hb].
  destruct (consider_Forall maxNodes Q node (metric point o) s1 Hnode Hb)
    as [Hc _].
  destruct (KdTree.consider maxNodes node (metric point o) s1) as [s2|e s2];
    cbn [stateOf] in Hc |- *; [|exact Hc].
  destruct (KdTree.hasRoomOrBeats _ _ _) as [[|]|e]; cbn [stateOf]; auto.
  destruct (KdTree.isNull (if bestIsLeft then r else l)); cbn [stateOf]; auto.
  destruct bestIsLeft; [apply Hr|apply Hl]; exact Hc.
Qed.

(** Whatever the outcome, the search evaluates the distance of nodes of
    the subtree only, and of none more often than it occurs there. *)
Lemma nearestSearch_visits (t : KdTree.tree) :
  forall s : KdTree.state,
    exists path rest : list nat,
      KdTree.visited
        (stateOf (KdTree.nearestSearch metric eleSize point maxNodes t s))
      = path ++ KdTree.visited s /\
      path ++ rest ≡ₚ posOf <$> inorder t.
Proof.
  induction t as [|o l IHl r IHr par d p]; intros s.
  { exists [], []. split; reflexivity. }
  cbn [KdTree.nearestSearch].
  set (node := KdTree.Node o l r par d p).
  set (s0 := KdTree.mkState (KdTree.bestNodes s) (p :: KdTree.visited s)).
  assert (Hpos : posOf <$> inorder node
                 = (posOf <$> inorder l) ++ p :: (posOf <$> inorder r))
    by (subst node; cbn [inorder]; now rewrite fmap_app).
  rewrite Hpos.
  destruct (KdTree.isNull r && KdTree.isNull l).
  { exists [p], ((posOf <$> inorder l) ++ (posOf <$> inorder r)). split.
    - unfold KdTree.consider.
      destruct (KdTree.hasRoomOrBeats _ _ _) as [[|]|e]; cbn [stateOf]; auto.
      destruct (KdTree.saveNode _ _ _ _); reflexivity.
    - cbn. now rewrite <- Permutation_middle. }
  set (bestIsLeft := if KdTree.isNull r then true
                     else if KdTree.isNull l then false
                          else KdTree.coord point (d mod eleSize)
                               <? KdTree.coord o (d mod eleSize)).
  set (best := if bestIsLeft then l else r).
  set (other := if bestIsLeft then r else l).
  assert (Hsides : (posOf <$> inorder l) ++ p :: (posOf <$> inorder r)
                   ≡ₚ p :: (posOf <$> inorder best)
                        ++ (posOf <$> inorder other)).
  { subst best other. rewrite <- Permutation_middle.
    destruct bestIsLeft; [reflexivity|].
    apply perm_skip, Permutation_app_comm. }
  assert (Hbest : forall s : KdTree.state,
             exists path rest : list nat,
               KdTree.visited
                 (stateOf (KdTree.nearestSearch metric eleSize point maxNodes
                             best s))
               = path ++ KdTree.visited s /\
               path ++ rest ≡ₚ posOf <$> inorder best)
    by (subst best; destruct bestIsLeft; auto).
  assert (Hother : forall s : KdTree.state,
             exists path rest : list nat,
               KdTree.visited
                 (stateOf (KdTree.nearestSearch metric eleSize point maxNodes
                             other s))
               = path ++ KdTree.visited s /\
               path ++ rest ≡ₚ posOf <$> inorder other)
    by (subst other; destruct bestIsLeft; auto).
  clear IHl IHr. setoid_rewrite Hsides.
  destruct (Hbest s0) as (pb & rb & Hvb & Hpb).
  assert (Hstop : forall s' : KdTree.state,
             KdTree.visited s' = pb ++ KdTree.visited s0 ->
             exists path rest : list nat,
               KdTree.visited s' = path ++ KdTree.visited s /\
               path ++ rest
               ≡ₚ p :: (posOf <$> inorder best) ++ (posOf <$> inorder other)).
  { intros s' Hs'. exists (pb ++ [p]), (rb ++ (posOf <$> inorder other)).
    split.
    - rewrite Hs'. subst s0. cbn [KdTree.visited].
      now rewrite <- app_assoc.
    - apply (visits_glue pb rb [] _ _ _ p Hpb). reflexivity. }
  destruct (KdTree.nearestSearch metric eleSize point maxNodes best s0)
    as [s1|e s1]; cbn [stateOf] in Hvb |- *; [|now apply Hstop].
  pose proof (consider_Forall maxNodes (fun _ => True) node (metric point o)
                s1 I) as Hc.
  destruct Hc as [_ Hc]; [apply Forall_true; auto|].
  destruct (KdTree.consider maxNodes node (metric point o) s1) as [s2|e s2];
    cbn [stateOf] in Hc |- *;
    [|apply Hstop; now rewrite Hc].
  assert (Hv2 : KdTree.visited s2 = pb ++ KdTree.visited s0)
    by now rewrite Hc.
  destruct (KdTree.hasRoomOrBeats _ _ _) as [[|]|e]; cbn [stateOf];
    try (now apply Hstop).
  fold other. destruct (KdTree.isNull other); cbn [stateOf];
    [now apply Hstop|].
  destruct (Hother s2) as (po & ro & Hvo & Hpo).
  exists (po ++ pb ++ [p]), (rb ++ ro). split.
  - rewrite Hvo, Hv2. subst s0. cbn [KdTree.visited].
    now rewrite <- !app_assoc.
  - now apply visits_glue.
Qed.

(** On a full heap, the search keeps the heap full and keeps any
    property of the entries that a candidate of the subtree nearer than
    an entry having it has too. *)
Lemma nearestSearch_full_keeps (Q : KdTree.entry -> Prop) (t : KdTree.tree) :
  1 <= maxNodes -> t <> KdTree.Null ->
  (forall x top : KdTree.entry,
      x ∈ entriesOf metric point t -> Q top -> snd x < snd top -> Q x) ->
  forall s : KdTree.state,
    length (KdTree.bestNodes s) = Z.to_nat maxNodes ->
    Forall Q (KdTree.bestNodes s) ->
    exists s',
      KdTree.nearestSearch metric eleSize point maxNodes t s = KdTree.Done s' /\
      length (KdTree.bestNodes s') = Z.to_nat maxNodes /\
      Forall Q (KdTree.bestNodes s').
Proof.
  intros Hk. induction t as [|o l IHl r IHr par d p]; [congruence|].
  intros _ Hent s Hlen Hall. cbn [KdTree.nearestSearch].
  rewrite entriesOf_node in Hent.
  set (node := KdTree.Node o l r par d p) in *.
  set (s0 := KdTree.mkState (KdTree.bestNodes s) (p :: KdTree.visited s)).
  set (lin := Z.abs (metric (KdTree.linearPoint eleSize point o d) o)).
  assert (Hnode : forall top : KdTree.entry,
             Q top -> metric point o < snd top -> Q (node, metric point o)).
  { intros top Htop Hlt. apply (Hent _ top); auto.
    apply elem_of_app. right. apply list_elem_of_here. }
  destruct (KdTree.isNull r && KdTree.isNull l) eqn:Hleaf.
  { destruct (consider_full_keeps maxNodes Q node (metric point o) s0 Hk Hlen
                Hall Hnode) as (bn' & -> & Hlen' & Hall'). eauto. }
  set (bestIsLeft := if KdTree.isNull r then true
                     else if KdTree.isNull l then false
                          else KdTree.coord point (d mod eleSize)
                               <? KdTree.coord o (d mod eleSize)).
  assert (Hl : KdTree.isNull l = false ->
               forall s : KdTree.state,
                 length (KdTree.bestNodes s) = Z.to_nat maxNodes ->
                 Forall Q (KdTree.bestNodes s) ->
                 exists s',
                   KdTree.nearestSearch metric eleSize point maxNodes l s
                   = KdTree.Done s' /\
                   length (KdTree.bestNodes s') = Z.to_nat maxNodes /\
                   Forall Q (KdTree.bestNodes s')).
  { intros Hnl. apply IHl; [now apply isNull_false|].
    intros x top Hx. apply Hent, elem_of_app. auto. }
  assert (Hr : KdTree.isNull r = false ->
               forall s : KdTree.state,
                 length (KdTree.bestNodes s) = Z.to_nat maxNodes ->
                 Forall Q (KdTree.bestNodes s) ->
                 exists s',
                   KdTree.nearestSearch metric eleSize point maxNodes r s
                   = KdTree.Done s' /\
                   length (KdTree.bestNodes s') = Z.to_nat maxNodes /\
                   Forall Q (KdTree.bestNodes s')).
  { intros Hnr. apply IHr; [now apply isNull_false|].
    intros x top Hx. apply Hent, elem_of_app. right.
    now apply list_elem_of_further. }
  clear IHl IHr.
  assert (Hbest : KdTree.isNull (if bestIsLeft then l else r) = false).
  { subst bestIsLeft. destruct (KdTree.isNull r) eqn:Hr0.
    - destruct (KdTree.isNull l) eqn:Hl0; [discriminate|auto].
    - destruct (KdTree.isNull l) eqn:Hl0; [auto|]. destruct (_ <? _); auto. }
  assert (Hb : exists s1,
             KdTree.nearestSearch metric eleSize point maxNodes
               (if bestIsLeft then l else r) s0 = KdTree.Done s1 /\
             length (KdTree.bestNodes s1) = Z.to_nat maxNodes /\
             Forall Q (KdTree.bestNodes s1))
    by (destruct bestIsLeft; [apply Hl|apply Hr]; auto).
  destruct Hb as (s1 & -> & Hlen1 & Hall1).
  destruct (consider_full_keeps maxNodes Q node (metric point o) s1 Hk Hlen1
              Hall1 Hnode) as (bn2 & -> & Hlen2 & Hall2).
  cbn [KdTree.bestNodes].
  destruct bn2 as [|top rest] eqn:Hbn2; [cbn in Hlen2; lia|].
  rewrite hasRoomOrBeats_full by lia.
  destruct (lin <? snd top); [|eauto].
  destruct (KdTree.isNull (if bestIsLeft then r else l)) eqn:Hother; [eauto|].
  destruct bestIsLeft; [apply Hr|apply Hl]; auto.
Qed.

(** Whenever a query returns, with or without radius and whatever [k],
    the metric and the tree, it returns at most [k] pairs, and each is a
    node of the tree with its distance to the query point. *)
Theorem results_are_tree_nodes (root : KdTree.tree) (maxDistance : option Z)
        (result : list KdTree.entry) :
  fst (KdTree.nearest metric eleSize point maxNodes root maxDistance)
  = Ok result ->
  (length result <= Z.to_nat maxNodes)%nat /\
  forall x : KdTree.entry,
    x ∈ result -> x ∈ entriesOf metric point root.
Proof.
  unfold KdTree.nearest. intros Hrun.
  set (Q := fun x : KdTree.entry =>
              KdTree.isNull (fst x) = true \/ x ∈ entriesOf metric point root).
  set (seeded := match maxDistance with
                 | Some d => if KdTree.truthy maxDistance
                             then KdTree.preseed (Z.to_nat maxNodes) d []
                             else Ok []
                 | None => Ok []
                 end) in Hrun.
  assert (Hseed : forall bn, seeded = Ok bn -> Forall Q bn).
  { subst seeded. intros bn Hbn.
    destruct maxDistance as [d|]; [|injection Hbn as <-; constructor].
    destruct (KdTree.truthy (Some d)); [|injection Hbn as <-; constructor].
    destruct (preseed_correct d (Z.to_nat maxNodes) []) as (bn' & Hp & Hperm).
    rewrite Hp in Hbn. injection Hbn as <-.
    rewrite Hperm, app_nil_r. apply Forall_replicate. now left. }
  destruct seeded as [bn|e]; [|discriminate].
  pose proof (nearestSearch_candidates Q root (fun x Hx => or_intror Hx)
                (KdTree.mkState bn []) (Hseed bn eq_refl)) as Hall.
  destruct (KdTree.nearestSearch metric eleSize point maxNodes root
              (KdTree.mkState bn [])) as [s1|e s1]; [|discriminate].
  cbn [stateOf] in Hall. cbn [fst] in Hrun. rename Hrun into Hcol.
  destruct (decide (Z.to_nat maxNodes <= length (KdTree.bestNodes s1))%nat)
    as [Hle|Hgt].
  - rewrite collect_filter in Hcol by lia. injection Hcol as <-.
    cbn [app]. rewrite drop_0. split.
    + etransitivity; [apply length_filter|]. rewrite length_take. lia.
    + intros x Hx. apply list_elem_of_filter in Hx as [Hnn Hx].
      pose proof (elem_of_sublist _ _ _ Hx (sublist_take _ _)) as Hx'.
      rewrite Forall_forall in Hall. destruct (Hall x Hx') as [Hn|]; [|auto].
      congruence.
  - rewrite collect_short in Hcol by lia. discriminate.
Qed.

(** A query, whatever its outcome, evaluates the distance of nodes of
    the tree only, and of no node more often than the tree holds it:
    the positions visited are a sub-multiset of those of the tree. *)
Theorem query_visits_nodes_once (root : KdTree.tree)
        (maxDistance : option Z) :
  exists rest : list nat,
    KdTree.visited
      (snd (KdTree.nearest metric eleSize point maxNodes root maxDistance))
    ++ rest ≡ₚ posOf <$> inorder root.
Proof.
  unfold KdTree.nearest.
  destruct (match maxDistance with
            | Some d => if KdTree.truthy maxDistance
                        then KdTree.preseed (Z.to_nat maxNodes) d []
                        else Ok []
            | None => Ok []
            end) as [bn|e].
  - destruct (nearestSearch_visits root (KdTree.mkState bn []))
      as (path & rest & Hv & Hperm).
    cbn [KdTree.visited] in Hv. rewrite app_nil_r in Hv.
    exists rest.
    destruct (KdTree.nearestSearch metric eleSize point maxNodes root
                (KdTree.mkState bn [])) as [s1|e s1];
      cbn [stateOf snd] in *; now rewrite Hv.
  - exists (posOf <$> inorder root). reflexivity.
Qed.

(** With room for every node ([k] at least the number of nodes) and no
    radius, the search itself never turns a candidate down, whatever the
    metric and the tree: when it ends the heap holds every node of the
    tree with its distance, each once.  (For [k] beyond the number of
    nodes it is the extraction loop that then fails.) *)
Theorem ample_capacity_keeps_every_candidate (root : KdTree.tree) :
  root <> KdTree.Null ->
  (length (inorder root) <= Z.to_nat maxNodes)%nat ->
  KdTree.bestNodes
    (snd (KdTree.nearest metric eleSize point maxNodes root None))
  ≡ₚ entriesOf metric point root.
Proof.
  intros Hroot Hroom. unfold KdTree.nearest.
  destruct (nearestSearch_room metric eleSize point maxNodes root Hroot
              (KdTree.mkState [] []))
    as (s' & -> & Hperm); [cbn; lia|].
  cbn [snd KdTree.bestNodes] in *. now rewrite app_nil_r in Hperm.
Qed.

End Traversal.

(** ** Build, then query within a radius *)

Section RadiusQuery.

Variable quickSortIP : list Z -> nat -> nat -> list Z.
Variable metric : list Z -> list Z -> Z.
Variable eleSize : nat.
Hypothesis eleSize_pos : (0 < eleSize)%nat.
Hypothesis sort_length : keepsLength eleSize quickSortIP.
Hypothesis sort_correct : sortsAlongAxis eleSize quickSortIP.

(** The query with a radius.  For a buffer of [N >= 1] whole points, a
    query point of [eleSize] coordinates, a non-negative metric that is
    monotonic per axis, any [k >= 1] (also beyond [N]) and a radius [d]
    other than [0]: the query returns; every pair returned is a node of
    the tree with its true distance, and that distance is strictly below
    [d]; and the distances returned are, as a multiset, the [k] smallest
    the linear scan finds strictly below [d] (all of them when there are
    fewer than [k]). *)
Theorem radius_query_matches_scan (points point : list Z) (N : nat)
        (k d : Z) :
  nonNegative metric -> perAxisMonotonic metric eleSize ->
  length points = (N * eleSize)%nat -> (1 <= N)%nat ->
  length point = eleSize -> 1 <= k -> d <> 0 ->
  exists (t : KdTree.kdTree) (result : list KdTree.entry) (s : KdTree.state),
    KdTree.new_kdTree quickSortIP eleSize points = Ok t /\
    KdTree.nearest metric eleSize point k (KdTree.root t) (Some d)
    = (Ok result, s) /\
    (forall x : KdTree.entry,
        x ∈ result ->
        x ∈ entriesOf metric point (KdTree.root t) /\ snd x < d) /\
    snd <$> result
    ≡ₚ snd <$> bruteForceWithin metric point (Z.to_nat k) d
                 (pointsOf eleSize points).
Proof.
  intros Hnn Hax Hlen HN Hq Hk Hd.
  destruct (new_kdTree_correct quickSortIP eleSize eleSize_pos sort_length
              sort_correct points N Hlen)
    as (t & Ht & _ & Hperm & Hobjs & Hpos & Hord & _).
  assert (Hroot : KdTree.root t <> KdTree.Null).
  { apply inorder_not_null. intros H. apply (f_equal length) in Hpos.
    rewrite H, length_seq in Hpos. cbn in Hpos. lia. }
  assert (Hvalid : validTree eleSize (KdTree.root t)).
  { split; [exact Hord|]. rewrite Hobjs. now apply pointsOf_whole. }
  exists t.
  cut (exists (result : list KdTree.entry) (s : KdTree.state),
          KdTree.nearest metric eleSize point k (KdTree.root t) (Some d)
          = (Ok result, s) /\
          (forall x : KdTree.entry,
              x ∈ result ->
              x ∈ entriesOf metric point (KdTree.root t) /\ snd x < d) /\
          snd <$> result
          ≡ₚ snd <$> bruteForceWithin metric point (Z.to_nat k) d
                       (pointsOf eleSize points)).
  { intros (result & s & H1 & H2 & H3). exists result, s. auto. }
  clear Ht Hpos Hord.
  set (root := KdTree.root t) in *. clearbody root.
  set (E := entriesOf metric point root).
  set (Q := fun x : KdTree.entry =>
              x = (KdTree.Null, d) \/ (x ∈ E /\ snd x < d)).
  unfold KdTree.nearest, KdTree.truthy.
  destruct (d =? 0) eqn:Ed; [apply Z.eqb_eq in Ed; lia|]. cbn [negb].
  destruct (preseed_ordered d (Z.to_nat k) []
              (heapProperty_nil KdTree.negDistance))
    as (bn0 & -> & Hp0 & Hheap0).
  rewrite app_nil_r in Hp0.
  assert (Hlen0 : length bn0 = Z.to_nat k)
    by (rewrite Hp0; apply length_replicate).
  destruct (nearestSearch_full_keeps metric eleSize point k Q root Hk Hroot)
    with (s := KdTree.mkState bn0 []) as (s' & Hrun & Hlen' & HQ).
  { intros x top Hx [->|[_ Htop]] Hlt; right; (split; [exact Hx|]);
      cbn [snd] in Hlt; lia. }
  { exact Hlen0. }
  { cbn [KdTree.bestNodes]. rewrite Hp0. apply Forall_replicate. now left. }
  destruct (nearestSearch_correct metric eleSize point k Hk Hq Hnn Hax root
              Hroot Hvalid (KdTree.mkState bn0 []) [])
    as (s'' & D' & Hrun' & HInv & HpermS).
  { split; [exact Hheap0|]. split; [cbn; lia|].
    split; [cbn; intros; lia|]. intros x y Hx. inversion Hx. }
  rewrite Hrun in Hrun'. injection Hrun' as <-. rewrite Hrun.
  cbn [KdTree.bestNodes] in HpermS. rewrite app_nil_r in HpermS.
  destruct HInv as (_ & _ & _ & Hfar).
  rewrite collect_filter by lia. cbn [app]. rewrite drop_0, take_ge by lia.
  set (bn := KdTree.bestNodes s') in *.
  assert (Hres : filter (fun x : KdTree.entry => KdTree.isNull (fst x) = false)
                        bn
                 = filter (fun x : KdTree.entry => snd x < d) bn).
  { apply filter_agree. eapply Forall_impl; [exact HQ|].
    intros x [->|[Hx Hlt]]; cbn.
    - split; [discriminate|lia].
    - apply entriesOf_elem in Hx as (_ & _ & Hn). split; auto. }
  rewrite Hres.
  exists (filter (fun x : KdTree.entry => snd x < d) bn), s'.
  split; [reflexivity|]. split.
  { intros x Hx. apply list_elem_of_filter in Hx as [Hlt Hx].
    split; [|exact Hlt]. rewrite Forall_forall in HQ.
    destruct (HQ x Hx) as [->|[? _]]; [cbn in Hlt; lia|auto]. }
  set (all := (fun p => (p, metric point p)) <$> pointsOf eleSize points).
  assert (Hall : snd <$> all ≡ₚ snd <$> E).
  { subst all E. unfold entriesOf. rewrite <- !list_fmap_compose.
    change (snd ∘ (fun p : list Z => (p, metric point p)))
      with (metric point).
    rewrite <- Hperm, <- Hobjs. unfold objs.
    rewrite <- list_fmap_compose. reflexivity. }
  set (W := filter (fun x : list Z * Z => snd x < d) all).
  set (kept := filter (fun x : KdTree.entry => snd x < d) bn).
  set (LO := filter (fun x : KdTree.entry => snd x < d) D').
  assert (HW : snd <$> W ≡ₚ snd <$> (kept ++ LO)).
  { subst W kept LO. rewrite <- filter_app, <- !filter_below_snd.
    rewrite Hall, HpermS, fmap_app, filter_app.
    rewrite (filter_none _ (snd <$> bn0)); [now rewrite app_nil_r|].
    rewrite Hp0. apply Forall_fmap, Forall_replicate.
    unfold compose. cbn. lia. }
  unfold bruteForceWithin. fold all. fold W.
  destruct (decide (length kept = Z.to_nat k)) as [Hfull|Hshort].
  - symmetry. apply smallest_by_scan with (left_out := LO); auto.
    intros x y Hx Hy.
    apply list_elem_of_filter in Hx as [_ Hx].
    apply list_elem_of_filter in Hy as [_ Hy]. now apply Hfar.
  - destruct (filter_short (fun x : KdTree.entry => snd x < d) bn)
      as (z & Hz & Hnz).
    { pose proof (length_filter (fun x : KdTree.entry => snd x < d) bn)
        as Hle.
      fold kept in Hle |- *. lia. }
    assert (Hzd : snd z = d).
    { rewrite Forall_forall in HQ.
      destruct (HQ z Hz) as [->|[_ ?]]; [reflexivity|lia]. }
    assert (HLO : LO = []).
    { subst LO. apply filter_none, Forall_forall. intros x Hx.
      specialize (Hfar x z Hx Hz). lia. }
    rewrite HLO, app_nil_r in HW.
    assert (HlenW : length W = length kept).
    { apply Permutation_length in HW. now rewrite !length_fmap in HW. }
    pose proof (length_filter (fun x : KdTree.entry => snd x < d) bn) as Hle.
    fold kept in Hle.
    rewrite take_ge.
    + rewrite sortBy_perm. symmetry. exact HW.
    + rewrite (Permutation_length (sortBy_perm snd W)). lia.
Qed.

End RadiusQuery.

(** ** The further properties on concrete inputs *)

Example heap_remove_run :
  BinaryHeap.remove (fun x => x) Z.eqb [1; 5; 2; 6; 7; 3] 6
  = BinaryHeap.Removed [1; 3; 2; 5; 7].
Proof. reflexivity. Qed.

Example scenario_within_radius_42 :
  pairsOf (fst (KdTree.nearest sqDist 2 [5; 5] 5 scenarioTree (Some 42)))
  = Ok [([0; 1], 41); ([5; 5], 0); ([1; 0], 41)].
Proof. vm_compute. reflexivity. Qed.

Lemma heapProperty_three : heapProperty (fun x : Z => x) [3; 5; 4].
Proof.
  intros n m x y Hx Hy Hm.
  assert (n = 0%nat) as -> by (apply lookup_lt_Some in Hy; cbn in Hy; lia).
  destruct Hm as [->| ->]; cbn in Hx, Hy;
    injection Hx as <-; injection Hy as <-; lia.
Qed.

Lemma pops_come_out_ascending_witness :
  exists out : list Z,
    popAll (fun x => x) (BinaryHeap.size [3; 5; 4]) [3; 5; 4] = Ok out /\
    out ≡ₚ [3; 5; 4] /\
    StronglySorted Z.le ((fun x => x) <$> out).
Proof.
  apply (pops_come_out_ascending (fun x : Z => x)).
  apply heapProperty_three.
Defined.


Lemma remove_present_takes_one_witness :
  exists c' : list Z,
    BinaryHeap.remove (fun x => x) Z.eqb [1; 5; 2; 6; 7; 3] 6
    = BinaryHeap.Removed c' /\
    6 :: c' ≡ₚ [1; 5; 2; 6; 7; 3] /\
    (heapProperty (fun x => x) [1; 5; 2; 6; 7; 3] ->
     heapProperty (fun x => x) c').
Proof.
  apply (remove_present_takes_one (fun x : Z => x) Z.eqb Z.eqb_eq).
  do 3 apply list_elem_of_further. apply list_elem_of_here.
Defined.

Lemma max_depth_is_log2_witness :
  exists t : KdTree.kdTree,
    KdTree.new_kdTree quickSortIP_model 2 scenario = Ok t /\
    KdTree.getMaxDepth t = Nat.log2 4 /\
    forall node : KdTree.tree,
      node ∈ inorder (KdTree.root t) -> (depthOf node <= Nat.log2 4)%nat.
Proof.
  apply (max_depth_is_log2 quickSortIP_model 2).
  - lia.
  - apply quickSortIP_model_length. lia.
  - reflexivity.
Defined.

Lemma leaf_counter_counts_childless_nodes_witness :
  exists t : KdTree.kdTree,
    KdTree.new_kdTree quickSortIP_model 2 scenario = Ok t /\
    KdTree.getAmountOfLeafDepthNodes t = countLeaves (KdTree.root t).
Proof.
  apply (leaf_counter_counts_childless_nodes quickSortIP_model 2).
  - lia.
  - apply quickSortIP_model_length. lia.
  - reflexivity.
Defined.

Lemma inorder_reads_buffer_witness :
  exists t : KdTree.kdTree,
    KdTree.new_kdTree quickSortIP_model 2 scenario = Ok t /\
    length (KdTree.buffer t) = length scenario /\
    objs (KdTree.root t) = pointsOf 2 (KdTree.buffer t) /\
    posOf <$> inorder (KdTree.root t) = seq 0 4.
Proof.
  apply (inorder_reads_buffer quickSortIP_model 2).
  - lia.
  - apply quickSortIP_model_length. lia.
  - reflexivity.
Defined.

Lemma parent_links_name_the_parent_witness :
  exists t : KdTree.kdTree,
    KdTree.new_kdTree quickSortIP_model 2 scenario = Ok t /\
    parentsFrom None (KdTree.root t).
Proof.
  apply (parent_links_name_the_parent quickSortIP_model 2).
  - lia.
  - apply quickSortIP_model_length. lia.
  - reflexivity.
Defined.

Lemma nearest_returns_k_witness :
  exists (result : list KdTree.entry) (s : KdTree.state),
    KdTree.nearest sqDist 2 [0; 0] 3 scenarioTree None = (Ok result, s) /\
    length result = Z.to_nat 3.
Proof.
  apply nearest_returns_k.
  - lia.
  - vm_compute. lia.
Defined.

Lemma results_are_tree_nodes_witness :
  (length [(scenarioTree, 0%Z)] <= Z.to_nat 1)%nat /\
  forall x : KdTree.entry,
    x ∈ [(scenarioTree, 0)] -> x ∈ entriesOf sqDist [1; 0] scenarioTree.
Proof.
  apply (results_are_tree_nodes sqDist 2 [1; 0] 1 scenarioTree (Some 42)).
  vm_compute. reflexivity.
Defined.

Lemma radius_query_matches_scan_witness :
  exists (t : KdTree.kdTree) (result : list KdTree.entry) (s : KdTree.state),
    KdTree.new_kdTree quickSortIP_model 2 scenario = Ok t /\
    KdTree.nearest sqDist 2 [5; 5] 5 (KdTree.root t) (Some 42)
    = (Ok result, s) /\
    (forall x : KdTree.entry,
        x ∈ result ->
        x ∈ entriesOf sqDist [5; 5] (KdTree.root t) /\ snd x < 42) /\
    snd <$> result
    ≡ₚ snd <$> bruteForceWithin sqDist [5; 5] (Z.to_nat 5) 42
                 (pointsOf 2 scenario).
Proof.
  apply (radius_query_matches_scan quickSortIP_model sqDist 2)
    with (N := 4%nat).
  - lia.
  - apply quickSortIP_model_length. lia.
  - apply quickSortIP_model_sorts. lia.
  - apply sqDist_nonneg.
  - apply sqDist_perAxisMonotonic. lia.
  - reflexivity.
  - lia.
  - reflexivity.
  - lia.
  - lia.
Defined.

Lemma ample_capacity_keeps_every_candidate_witness :
  KdTree.bestNodes
    (snd (KdTree.nearest sqDist 2 [0; 0] 5 scenarioTree None))
  ≡ₚ entriesOf sqDist [0; 0] scenarioTree.
Proof.
  apply ample_capacity_keeps_every_candidate.
  - discriminate.
  - vm_compute. lia.
Defined.
